(** * filecache: an in-memory cache of file contents

    A shallow embedding of [filecache.go] (package [filecache]) and the
    properties of its staleness policy, eviction policy, population path,
    maintenance sweep and life cycle.

    Conventions of the embedding.
    - A [*FileCache] receiver is a [FileCache] value threaded through the
      call: a method that mutates the receiver returns the new value.
    - A Go map that may be [nil] is an [option (gmap ...)]; reading a nil map
      finds nothing, [delete] on it does nothing, assigning into it panics.
    - A run-time panic is the [Panic] outcome; a goroutine that never gets
      past a point (parked for ever on a channel operation, or in a loop that
      does not end) is [Hangs].
    - The filesystem and the clock are the [World] a call runs against.
    - [for ... range] over a map visits the entries in an order Go leaves
      unspecified: the order is a parameter ([iteration]) and the theorems
      hold for every order that enumerates the map. *)

From Stdlib Require Import ZArith Lia.
From Stdlib Require Import Floats.
From stdpp Require Import base option list gmap strings.

Local Open Scope Z_scope.

(** ** Errors, outcomes *)

(** The package's sentinel errors, and the errors of package [os] (a
    [*PathError] and the like), which are none of the sentinels. *)
Inductive error : Type :=
  | InvalidCacheItem
  | ItemIsDirectory
  | ItemNotInCache
  | ItemTooLarge
  | WriteIncomplete
  | OSError (msg : string).

(** What running a piece of Go code comes to. *)
Inductive outcome (A : Type) : Type :=
  | Ret (a : A)
  | Panic (msg : string)
  | Hangs.
Arguments Ret {A} a.
Arguments Panic {A} msg.
Arguments Hangs {A}.

Definition bind {A B : Type} (x : outcome A) (k : A -> outcome B) : outcome B :=
  match x with
  | Ret a => k a
  | Panic msg => Panic msg
  | Hangs => Hangs
  end.

Notation "x <- e1 ;; e2" := (bind e1 (fun x => e2))
  (at level 100, e1 at next level, right associativity).

(** ** Integers and time *)

Definition min_int64 : Z := - 2 ^ 63.
Definition max_int64 : Z := 2 ^ 63 - 1.

(** [int64] addition. *)
Definition wrap64 (z : Z) : Z := (z + 2 ^ 63) mod 2 ^ 64 - 2 ^ 63.

(** A [time.Time] is an instant, counted in nanoseconds; a [time.Duration]
    is an [int64] count of nanoseconds. *)
Definition Time : Type := Z.
Definition Duration : Type := Z.

Definition Second : Duration := 1000000000.

Definition Time_Equal (t u : Time) : bool := t =? u.
Definition Time_Before (t u : Time) : bool := t <? u.

(** [t.Sub(u)]: the difference, clamped to the range of [Duration]. *)
Definition Time_Sub (t u : Time) : Duration :=
  Z.max min_int64 (Z.min max_int64 (t - u)).

(** ** binary64 arithmetic

    [Duration.Seconds] computes in [float64].  Every finite binary64 value is
    an integer multiple of [2^-1074], so a value is kept as that integer (a
    count of [quantum]s) and each operation is the exact result rounded to
    the nearest representable value, ties to even, as IEEE 754 prescribes.
    Magnitudes stay far below the overflow threshold here (a [Duration] is
    below [2^63]), so infinities and NaN are left out. *)
Module Float64.

Definition t : Type := Z.

Definition quantum_exp : Z := 1074.
Definition quantum : Z := 2 ^ quantum_exp.

(** The integer nearest to [p / q], for [0 < q]; ties go to the even one. *)
Definition rne (p q : Z) : Z :=
  let d := p / q in
  match 2 * (p mod q) ?= q with
  | Lt => d
  | Gt => d + 1
  | Eq => if Z.even d then d else d + 1
  end.

(** The spacing of binary64 values around a magnitude of [v] quanta:
    53 significant bits, and never finer than one quantum. *)
Definition ulp (v : Z) : Z := 2 ^ Z.max 0 (Z.log2 v - 52).

(** The binary64 value nearest to [p / q] quanta, for [0 < q]. *)
Definition round (p q : Z) : t :=
  let u := ulp (Z.abs p / q) in
  rne p (q * u) * u.

(** [float64(k)] of an integer [k]. *)
Definition of_int (k : Z) : t := round (k * quantum) 1.

Definition add (a b : t) : t := round (a + b) 1.

(** [a / b] for a positive divisor. *)
Definition div (a b : t) : t := round (a * quantum) b.

(** [strconv.Atoi(fmt.Sprintf("%0.0f", x))]: the verb prints the integer
    nearest to [x], ties to even ("-0" for a negative value that rounds
    to zero), and [Atoi] reads it back; [None] when [Atoi] reports the
    number out of the range of [int] (64 bits wide here). *)
Definition atoi_sprintf_0f (x : t) : option Z :=
  let n := rne x quantum in
  if (min_int64 <=? n) && (n <=? max_int64) then Some n else None.

(** The same value read off a kernel float, to compare the two. *)
Definition of_prim (f : PrimFloat.float) : option t :=
  match FloatOps.Prim2SF f with
  | SpecFloat.S754_zero _ => Some 0
  | SpecFloat.S754_finite s m e =>
      Some ((if s then -1 else 1) * Z.pos m * 2 ^ (e + quantum_exp))
  | _ => None
  end.

Definition prim_of_int (k : Z) : PrimFloat.float :=
  let m := PrimFloat.of_uint63 (Uint63.of_Z (Z.abs k)) in
  if k <? 0 then PrimFloat.opp m else m.

End Float64.

(** [d.Seconds()]:
    [sec := d / Second; nsec := d % Second;
     return float64(sec) + float64(nsec)/1e9]
    (Go's [/] and [%] truncate towards zero). *)
Definition Duration_Seconds (d : Duration) : Float64.t :=
  let sec := Z.quot d Second in
  let nsec := Z.rem d Second in
  Float64.add (Float64.of_int sec)
              (Float64.div (Float64.of_int nsec) (Float64.of_int 1000000000)).

Definition prim_Duration_Seconds (d : Duration) : PrimFloat.float :=
  let sec := Z.quot d Second in
  let nsec := Z.rem d Second in
  PrimFloat.add (Float64.prim_of_int sec)
    (PrimFloat.div (Float64.prim_of_int nsec) (Float64.prim_of_int 1000000000)).

(** ** The filesystem and the clock *)

Module FileInfo.
(** What the code reads off an [os.FileInfo]: [fi.Size()],
    [fi.Mode().IsDir()] (the same as [fi.IsDir()]) and [fi.ModTime()]. *)
Record t : Type := mk { Size : Z; IsDir : bool; ModTime : Time }.
End FileInfo.

(** [stat] is [os.Stat]: a [FileInfo], or the text of the [os] error.
    [readFile] is [ioutil.ReadFile]: the bytes read and the error, if any
    (the bytes read before a failure come back with it).
    [now] is [time.Now()]. *)
Record World : Type := mkWorld {
  stat : string -> string + FileInfo.t;
  readFile : string -> list Byte.byte * option string;
  now : Time
}.

(** ** The data model *)

Module cacheItem.
Record t : Type := mk {
  Content : list Byte.byte;
  Size : Z;
  Lastaccess : Time;
  Modified : Time
}.
End cacheItem.

(** A [chan string]: closed or not, and the strings in its buffer. *)
Record chan : Type := mkChan { closed : bool; buffer : list string }.

Record FileCache : Type := mkFileCache {
  items : option (gmap string cacheItem.t);
  in_pipe : option chan;
  MaxItems : Z;
  MaxSize : Z;
  ExpireItem : Z;
  Every : Z
}.

Definition set_items (c : FileCache) (m : option (gmap string cacheItem.t)) : FileCache :=
  mkFileCache m (in_pipe c) (MaxItems c) (MaxSize c) (ExpireItem c) (Every c).

Definition set_in_pipe (c : FileCache) (p : option chan) : FileCache :=
  mkFileCache (items c) p (MaxItems c) (MaxSize c) (ExpireItem c) (Every c).

Definition Kilobyte : Z := 1024.
Definition Megabyte : Z := 1024 * 1024.
Definition Gigabyte : Z := 1024 * 1024 * 1024.

Definition DefaultExpireItem : Z := 300.
Definition DefaultMaxSize : Z := 32 * Megabyte.
Definition DefaultMaxItems : Z := 32.
Definition DefaultEvery : Z := 60.

Definition NewCachePipeSize : Z := 4.

(** [new(FileCache)]: every field at its zero value. *)
Definition NewCache : FileCache := mkFileCache None None 0 0 0 0.

Definition NewDefaultCache : FileCache :=
  mkFileCache None None DefaultMaxItems DefaultMaxSize DefaultExpireItem DefaultEvery.

(** ** Map primitives *)

(** The order in which a [range] loop visits the entries of a map. *)
Definition iteration : Type := gmap string cacheItem.t -> list (string * cacheItem.t).

(** Go promises only that each entry is visited once. *)
Definition enumerates (ord : iteration) : Prop :=
  forall m, ord m ≡ₚ map_to_list m.

(** The entries a [for name, itm := range cache.items] loop starts from. *)
Definition range (ord : iteration) (c : FileCache) : list (string * cacheItem.t) :=
  match items c with
  | None => []
  | Some m => ord m
  end.

(** [itm, ok := cache.items[name]]. *)
Definition lookup_item (c : FileCache) (name : string) : option cacheItem.t :=
  match items c with
  | None => None
  | Some m => m !! name
  end.

(** [delete(cache.items, name)]. *)
Definition delete_item (c : FileCache) (name : string) : FileCache :=
  match items c with
  | None => c
  | Some m => set_items c (Some (delete name m))
  end.

(** [cache.items[name] = itm]. *)
Definition assign_item (c : FileCache) (name : string) (itm : cacheItem.t) : outcome FileCache :=
  match items c with
  | None => Panic "assignment to entry in nil map"
  | Some m => Ret (set_items c (Some (<[name := itm]> m)))
  end.

(** ** Inspection *)

Definition Active (c : FileCache) : bool :=
  match in_pipe c, items c with
  | Some _, Some _ => true
  | _, _ => false
  end.

(** [len(cache.items)]. *)
Definition Size (c : FileCache) : Z :=
  match items c with
  | None => 0
  | Some m => Z.of_nat (size m)
  end.

Definition FileSize (ord : iteration) (c : FileCache) : Z :=
  foldl (fun totalSize e => wrap64 (totalSize + cacheItem.Size e.2)) 0 (range ord c).

Definition StoredFiles (ord : iteration) (c : FileCache) : list string :=
  foldl (fun fileList e => fileList ++ [e.1]) [] (range ord c).

Definition InCache (c : FileCache) (name : string) : bool :=
  match lookup_item c name with
  | Some _ => true
  | None => false
  end.

(** ** Staleness policy *)

Definition changed (w : World) (c : FileCache) (name : string) : bool :=
  match lookup_item c name with
  | None => true
  | Some itm =>
      match stat w name with
      | inl _ => true
      | inr fi => negb (Time_Equal (cacheItem.Modified itm) (FileInfo.ModTime fi))
      end
  end.

Definition expired (w : World) (c : FileCache) (name : string) : bool :=
  match lookup_item c name with
  | None => true
  | Some itm =>
      let dur := Time_Sub (now w) (cacheItem.Lastaccess itm) in
      match Float64.atoi_sprintf_0f (Duration_Seconds dur) with
      | None => true
      | Some sec => ExpireItem c <=? sec
      end
  end.

Definition item_expired (w : World) (c : FileCache) (name : string) : bool :=
  if changed w c name then true
  else if negb (ExpireItem c =? 0) && expired w c name then true
  else false.

(** ** Reading from the cache *)

(** A goroutine started by a [go] statement. *)
Inductive goroutine : Type :=
  | GoCache (name : string)
  | GoItemListener
  | GoVaccuum.

(** An [io.Writer], as [fmt.Fprintf(w, "%s", b)] sees it: the number of
    bytes written and the error, if any. *)
Definition Writer : Type := list Byte.byte -> Z * option string.

Definition WriteItem (wr : Writer) (c : FileCache) (name : string) : option error :=
  match lookup_item c name with
  | None => Some ItemNotInCache
  | Some itm =>
      let '(n, err) := wr (cacheItem.Content itm) in
      match err with
      | Some e => Some (OSError e)
      | None => if negb (n =? cacheItem.Size itm) then Some WriteIncomplete else None
      end
  end.

Definition GetItem (c : FileCache) (name : string) : list Byte.byte * bool :=
  match lookup_item c name with
  | None => ([], false)
  | Some itm => (cacheItem.Content itm, true)
  end.

Definition GetItemString (c : FileCache) (name : string) : string * bool :=
  match lookup_item c name with
  | None => (EmptyString, false)
  | Some itm => (String.string_of_list_byte (cacheItem.Content itm), true)
  end.

(** [ReadFile] and [ReadFileString] give the content, the error and the
    goroutines they start; neither assigns to the cache. *)
Definition ReadFile (w : World) (c : FileCache) (name : string)
  : list Byte.byte * option error * list goroutine :=
  if InCache c name then ((GetItem c name).1, None, [])
  else
    let '(content, err) := readFile w name in
    match err with
    | None => (content, Some ItemNotInCache, [GoCache name])
    | Some e => (content, Some (OSError e), [GoCache name])
    end.

(** In the [else] branch [raw, err := ioutil.ReadFile(name)] declares a new
    [err], local to that block ([err_block] below); the assignment
    [err = ItemNotInCache] goes to it, and the named result [err], which the
    final [return] hands back, keeps its zero value. *)
Definition ReadFileString (w : World) (c : FileCache) (name : string)
  : string * option error * list goroutine :=
  let content := EmptyString in
  let err : option error := None in
  if InCache c name then ((GetItemString c name).1, err, [])
  else
    let '(raw, err_block) := readFile w name in
    match err_block with
    | None =>
        let err_block := Some ItemNotInCache in
        let content := String.string_of_list_byte raw in
        (content, err, [GoCache name])
    | Some _ => (content, err, [GoCache name])
    end.


(** ** Population *)

Definition add_item (w : World) (c : FileCache) (name : string)
  : outcome (option error * FileCache) :=
  let ok := InCache c name in
  let expired := item_expired w c name in
  if ok && negb expired then Ret (None, c)
  else
    let c := if ok then delete_item c name else c in
    match stat w name with
    | inl e => Ret (Some (OSError e), c)
    | inr fi =>
        if FileInfo.IsDir fi then Ret (Some ItemIsDirectory, c)
        else if MaxSize c <? FileInfo.Size fi then Ret (Some ItemTooLarge, c)
        else
          let '(content, err) := readFile w name in
          match err with
          | Some e => Ret (Some (OSError e), c)
          | None =>
              let itm := cacheItem.mk content (FileInfo.Size fi) (now w) (FileInfo.ModTime fi) in
              c <- assign_item c name itm ;;
              if negb (InCache c name) then Ret (Some ItemNotInCache, c)
              else Ret (None, c)
          end
    end.

(** ** Eviction *)

(** The body of [expire_oldest]'s loop over [oldest] and [oldest_name]. *)
Definition expire_oldest_visit (force : bool) (acc : Time * string)
    (e : string * cacheItem.t) : Time * string :=
  let '(oldest, oldest_name) := acc in
  let '(name, itm) := e in
  if force && String.eqb oldest_name "" then (cacheItem.Lastaccess itm, name)
  else if Time_Before (cacheItem.Lastaccess itm) oldest then (cacheItem.Lastaccess itm, name)
  else (oldest, oldest_name).

Definition expire_oldest (force : bool) (w : World) (ord : iteration) (c : FileCache)
  : FileCache :=
  let '(_, oldest_name) :=
    foldl (expire_oldest_visit force) (now w, EmptyString) (range ord c) in
  if negb (String.eqb oldest_name "") then delete_item c oldest_name else c.

(** [cache.in_pipe <- name]. *)
Definition send (c : FileCache) (name : string) : outcome FileCache :=
  match in_pipe c with
  | None => Hangs
  | Some ch =>
      if closed ch then Panic "send on closed channel"
      else if Z.of_nat (length (buffer ch)) <? NewCachePipeSize
      then Ret (set_in_pipe c (Some (mkChan false (buffer ch ++ [name]))))
      else Hangs
  end.

Definition Cache (w : World) (ord : iteration) (c : FileCache) (name : string)
  : outcome FileCache :=
  let c := if Size c =? MaxItems c then expire_oldest true w ord c else c in
  send c name.

Definition CacheNow (w : World) (ord : iteration) (c : FileCache) (name : string)
  : outcome (option error * FileCache) :=
  let c := if Size c =? MaxItems c then expire_oldest true w ord c else c in
  add_item w c name.

(** One turn of [item_listener]'s loop: [None] when the goroutine returns. *)
Definition item_listener (w : World) (c : FileCache) : outcome (option FileCache) :=
  match in_pipe c with
  | None => Hangs
  | Some ch =>
      match buffer ch with
      | name :: rest =>
          r <- add_item w (set_in_pipe c (Some (mkChan (closed ch) rest))) name ;;
          Ret (Some r.2)
      | [] => if closed ch then Ret None else Hangs
      end
  end.

(** ** Life cycle *)

(** [if cache.in_pipe != nil { close(cache.in_pipe) }]. *)
Definition close_in_pipe (c : FileCache) : outcome FileCache :=
  match in_pipe c with
  | None => Ret c
  | Some ch =>
      if closed ch then Panic "close of closed channel"
      else Ret (set_in_pipe c (Some (mkChan true (buffer ch))))
  end.

Definition Start (c : FileCache) : outcome (FileCache * list goroutine) :=
  c <- close_in_pipe c ;;
  let c := set_items c (Some ∅) in
  let c := set_in_pipe c (Some (mkChan false [])) in
  Ret (c, [GoItemListener; GoVaccuum]).

Definition Stop (ord : iteration) (c : FileCache) : outcome FileCache :=
  c <- close_in_pipe c ;;
  let c := foldl (fun c e => delete_item c e.1) c (range ord c) in
  Ret (set_items c None).

Definition Remove (c : FileCache) (name : string) : bool * option error * FileCache :=
  match lookup_item c name with
  | None => (false, None, c)
  | Some _ =>
      let c := delete_item c name in
      let valid := InCache c name in
      (if valid then false else true, None, c)
  end.

(** ** Maintenance *)

(** [time.ParseDuration(fmt.Sprintf("%ds", every))] for [1 <= every]:
    the parser refuses a count of seconds above [1<<63 / 1e9]. *)
Definition ParseDuration_seconds (every : Z) : option Duration :=
  if every <=? 9223372036 then Some (every * Second) else None.

(** What [vaccuum] does before its loop: [None] when it returns at once. *)
Definition vaccuum_enter (c : FileCache) : outcome (option Duration) :=
  if Every c <? 1 then Ret None
  else
    match ParseDuration_seconds (Every c) with
    | None => Panic "time: invalid duration"
    | Some dur => Ret (Some dur)
    end.

(** [for name, _ := range cache.items { if cache.item_expired(name) {
    delete(cache.items, name) } }], over the names in visiting order. *)
Definition sweep (w : World) (c : FileCache) (names : list string) : FileCache :=
  foldl (fun c name => if item_expired w c name then delete_item c name else c) c names.

(** [for size := cache.Size(); size > cache.MaxItems; size = cache.Size() {
    cache.expire_oldest(true) }]; [None] when [fuel] turns of the loop do
    not end it. *)
Fixpoint evict_excess (fuel : nat) (w : World) (ord : iteration) (c : FileCache)
  : option FileCache :=
  if MaxItems c <? Size c then
    match fuel with
    | O => None
    | S fuel => evict_excess fuel w ord (expire_oldest true w ord c)
    end
  else Some c.

Inductive vaccuum_turn : Type :=
  | VaccuumReturns
  | VaccuumSwept (c : FileCache)
  | VaccuumOutOfFuel.

(** One turn of [vaccuum]'s loop, from the moment the timer fires, against
    one reading of the filesystem and the clock. *)
Definition vaccuum (fuel : nat) (w : World) (ord : iteration) (c : FileCache) : vaccuum_turn :=
  match items c with
  | None => VaccuumReturns
  | Some _ =>
      match evict_excess fuel w ord (sweep w c (range ord c).*1) with
      | Some c => VaccuumSwept c
      | None => VaccuumOutOfFuel
      end
  end.

(** ** The cache as a transition system

    Everything that can change a cache: the exported methods that assign to
    it, a write to its exported fields, a turn of the listener and a turn of
    the sweeper; and the two hit-or-miss readers, which assign to nothing
    (the [go cache.Cache(name)] that [ReadFile] starts on a miss runs as a
    transition of its own, [OpCache]). *)
Inductive op : Type :=
  | OpGetItem (name : string)
  | OpReadFile (name : string)
  | OpStart
  | OpStop
  | OpCache (name : string)
  | OpCacheNow (name : string)
  | OpRemove (name : string)
  | OpConfigure (maxItems maxSize expireItem every : Z)
  | OpItemListener
  | OpVaccuum.

Definition step (w : World) (ord : iteration) (o : op) (c : FileCache) : outcome FileCache :=
  match o with
  | OpGetItem _ => Ret c
  | OpReadFile _ => Ret c
  | OpStart => r <- Start c ;; Ret r.1
  | OpStop => Stop ord c
  | OpCache name => Cache w ord c name
  | OpCacheNow name => r <- CacheNow w ord c name ;; Ret r.2
  | OpRemove name => Ret (Remove c name).2
  | OpConfigure maxItems maxSize expireItem every =>
      Ret (mkFileCache (items c) (in_pipe c) maxItems maxSize expireItem every)
  | OpItemListener =>
      r <- item_listener w c ;;
      Ret (default c r)
  | OpVaccuum =>
      match vaccuum (S (Z.to_nat (Size c))) w ord c with
      | VaccuumReturns => Ret c
      | VaccuumSwept c => Ret c
      | VaccuumOutOfFuel => Hangs
      end
  end.

(** The caches a program can get to when every call runs against a world
    that satisfies [good]. *)
Inductive reachable (good : World -> Prop) : FileCache -> Prop :=
  | reachable_NewCache : reachable good NewCache
  | reachable_NewDefaultCache : reachable good NewDefaultCache
  | reachable_step w ord o c c' :
      reachable good c -> good w -> enumerates ord ->
      step w ord o c = Ret c' -> reachable good c'.

(** ** Predicates the properties are stated with *)

(** [pruned c c']: [c'] is [c] with some entries deleted and nothing else
    touched. *)
Definition pruned (c c' : FileCache) : Prop :=
  in_pipe c' = in_pipe c /\ MaxItems c' = MaxItems c /\ MaxSize c' = MaxSize c /\
  ExpireItem c' = ExpireItem c /\ Every c' = Every c /\
  (items c = None <-> items c' = None) /\
  forall name, lookup_item c' name = None \/ lookup_item c' name = lookup_item c name.

(** [populated w c name itm]: [itm] is the entry [add_item] builds for
    [name] against [w]: a regular file, no larger than [MaxSize], read
    without error, stamped with the current time. *)
Definition populated (w : World) (c : FileCache) (name : string) (itm : cacheItem.t) : Prop :=
  exists fi content,
    stat w name = inr fi /\ FileInfo.IsDir fi = false /\
    FileInfo.Size fi <= MaxSize c /\ readFile w name = (content, None) /\
    itm = cacheItem.mk content (FileInfo.Size fi) (now w) (FileInfo.ModTime fi).

(** An inert cache: never started, or stopped. *)
Definition inert (c : FileCache) : Prop := items c = None.

(** ** Worlds and caches used as concrete instances *)

Definition hi : list Byte.byte := [Byte.x68; Byte.x69].

(** A filesystem with two regular files, ["a"] (2 bytes, modified at 10) and
    ["big"] (5000 bytes by [stat], modified at 11); every other path is
    missing.  The clock reads [t]. *)
Definition disk (t : Time) : World :=
  mkWorld
    (fun name =>
       if String.eqb name "a" then inr (FileInfo.mk 2 false 10)
       else if String.eqb name "big" then inr (FileInfo.mk 5000 false 11)
       else inl "no such file or directory"%string)
    (fun name =>
       if String.eqb name "a" then (hi, None)
       else if String.eqb name "big" then (repeat Byte.x00 5000, None)
       else ([], Some "no such file or directory"%string))
    t.

(** A cache holding ["a"] as cached at time 0, modification time 10. *)
Definition cache_with_a (expireItem : Z) : FileCache :=
  mkFileCache (Some {[ "a"%string := cacheItem.mk hi 2 0 10 ]})
              (Some (mkChan false [])) 2 Kilobyte expireItem 0.


(** A cache holding ["big"] as it was when it still was 2 bytes long,
    modified at 5 (on [disk] it has grown to 5000 bytes since). *)
Definition cache_with_big : FileCache :=
  mkFileCache (Some {[ "big"%string := cacheItem.mk hi 2 0 5 ]})
              (Some (mkChan false [])) 2 Kilobyte 0 0.

(** A started, empty cache with room for no entry ([MaxItems = 0], as
    [NewCache] leaves it) and [MaxSize] set to 1 KB. *)
Definition cache_without_room : FileCache :=
  mkFileCache (Some ∅) (Some (mkChan false [])) 0 Kilobyte 0 0.

(** A full cache ([MaxItems = 2]) holding ["a"], cached at 0, and ["b"],
    cached at 7. *)
Definition full_cache (expireItem : Z) : FileCache :=
  mkFileCache (Some (<[ "b"%string := cacheItem.mk hi 2 7 10 ]>
                       {[ "a"%string := cacheItem.mk hi 2 0 10 ]}))
              (Some (mkChan false [])) 2 Kilobyte expireItem 0.

(** A filesystem on which ["/proc/version"] is a regular file that [stat]
    reports as 0 bytes long and that reads as 2 bytes (as the files of
    Linux's procfs do; a file appended to between the two calls looks the
    same). *)
Definition procfs : World :=
  mkWorld
    (fun name =>
       if String.eqb name "/proc/version" then inr (FileInfo.mk 0 false 3)
       else inl "no such file or directory"%string)
    (fun name =>
       if String.eqb name "/proc/version" then (hi, None)
       else ([], Some "no such file or directory"%string))
    4.

(** A writer that takes every byte it is given. *)
Definition write_all : Writer := fun b => (Z.of_nat (length b), None).

(** Worlds in which [os.Stat] fails on the empty path, as it does. *)
Definition stat_rejects_empty_path (w : World) : Prop :=
  exists e, stat w EmptyString = inl e.

(** Worlds in which a file reads as many bytes as [stat] reported. *)
Definition stat_size_is_read_length (w : World) : Prop :=
  forall name fi content,
    stat w name = inr fi -> readFile w name = (content, None) ->
    FileInfo.Size fi = Z.of_nat (length content).

(** The sum of the [Size] fields of a list of entries, in [Z]. *)
Definition sum_of_sizes (l : list (string * cacheItem.t)) : Z :=
  foldr (fun e s => cacheItem.Size e.2 + s) 0 l.

(** What [Start] and then [CacheNow("a")] at time 1 make of
    [NewDefaultCache] on [disk]. *)
Definition default_cache_with_a : FileCache :=
  mkFileCache (Some {[ "a"%string := cacheItem.mk hi 2 1 10 ]})
              (Some (mkChan false []))
              DefaultMaxItems DefaultMaxSize DefaultExpireItem DefaultEvery.
(** * Properties *)

Lemma enumerates_map_to_list : enumerates map_to_list.
Proof. intros m. reflexivity. Qed.

(** ** Basic facts about the map primitives *)

Lemma lookup_item_set_items c m name :
  lookup_item (set_items c (Some m)) name = m !! name.
Proof. reflexivity. Qed.

Lemma lookup_item_delete_item c name name' :
  lookup_item (delete_item c name) name' =
  if decide (name = name') then None else lookup_item c name'.
Proof.
  unfold delete_item, lookup_item.
  destruct (items c) as [m|] eqn:Hm; simpl.
  - rewrite lookup_delete. reflexivity.
  - rewrite Hm. case_decide; reflexivity.
Qed.

Lemma InCache_true c name : InCache c name = true <-> is_Some (lookup_item c name).
Proof.
  unfold InCache. destruct (lookup_item c name); split; intros H;
    try reflexivity; try discriminate; eauto.
  destruct H; discriminate.
Qed.

Lemma InCache_false c name : InCache c name = false <-> lookup_item c name = None.
Proof. unfold InCache. destruct (lookup_item c name); split; congruence. Qed.

(** ** Staleness: the combined rule *)

Lemma changed_cached w c name itm :
  lookup_item c name = Some itm ->
  changed w c name = true <->
  (exists e, stat w name = inl e) \/
  (exists fi, stat w name = inr fi /\ cacheItem.Modified itm <> FileInfo.ModTime fi).
Proof.
  intros Hitm. unfold changed. rewrite Hitm.
  destruct (stat w name) as [e|fi]; split.
  - intros _. left. eauto.
  - reflexivity.
  - intros H. right. exists fi. split; [reflexivity|].
    unfold Time_Equal in H. apply negb_true_iff, Z.eqb_neq in H. exact H.
  - intros [[e He]|[fi' [Hfi Hne]]]; [discriminate|].
    injection Hfi as <-. unfold Time_Equal.
    apply negb_true_iff, Z.eqb_neq. exact Hne.
Qed.

(** C1. For a cached key, [item_expired] answers true exactly when the
    changed-on-disk check does ([os.Stat] fails, or the live modification
    time differs from the stored one) or [ExpireItem] is not 0 and the
    aged-out check [expired] answers true.  The changed-on-disk check alone
    decides: a changed or vanished file makes the entry stale whatever
    [ExpireItem] and the age are. *)
Theorem item_expired_combined_rule w c name itm :
  lookup_item c name = Some itm ->
  (changed w c name = true <->
     (exists e, stat w name = inl e) \/
     (exists fi, stat w name = inr fi /\ cacheItem.Modified itm <> FileInfo.ModTime fi))
  /\ (item_expired w c name = true <->
        changed w c name = true \/ (ExpireItem c <> 0 /\ expired w c name = true))
  /\ (changed w c name = true -> item_expired w c name = true).
Proof.
  intros Hitm. split; [exact (changed_cached w c name itm Hitm)|].
  unfold item_expired. destruct (changed w c name); split.
  - split; [intros _; left; reflexivity | reflexivity].
  - reflexivity.
  - destruct (ExpireItem c =? 0) eqn:He; simpl.
    + apply Z.eqb_eq in He. split; [discriminate|].
      intros [H|[H _]]; [discriminate | contradiction].
    + apply Z.eqb_neq in He. destruct (expired w c name); split; intros H;
        try reflexivity; try discriminate.
      * right. split; [exact He | reflexivity].
      * destruct H as [H|[_ H]]; discriminate.
  - discriminate.
Qed.

Lemma item_expired_combined_rule_witness :
  item_expired (disk 5) (cache_with_a 0) "a" = true <->
  changed (disk 5) (cache_with_a 0) "a" = true \/
  (ExpireItem (cache_with_a 0) <> 0 /\ expired (disk 5) (cache_with_a 0) "a" = true).
Proof.
  exact (proj1 (proj2 (item_expired_combined_rule (disk 5) (cache_with_a 0) "a"
                         (cacheItem.mk hi 2 0 10) eq_refl))).
Defined.

(** ** binary64 rounding: what the proofs below need of it *)

Section Rounding.

Import Float64.

Lemma quantum_pos : 0 < quantum.
Proof. unfold quantum, quantum_exp. apply Z.pow_pos_nonneg; lia. Qed.

Lemma rne_ge p q k : 0 < q -> k * q <= p -> k <= rne p q.
Proof.
  intros Hq Hk.
  assert (k <= p / q) by (apply Z.div_le_lower_bound; lia).
  unfold rne. destruct (2 * (p mod q) ?= q); [destruct (Z.even (p / q))| |]; lia.
Qed.

Lemma rne_le p q k : 0 < q -> p <= k * q -> rne p q <= k.
Proof.
  intros Hq Hk.
  pose proof (Z.div_mod p q ltac:(lia)) as Hdm.
  pose proof (Z.mod_pos_bound p q Hq) as Hr.
  assert (p / q <= k) as Hd by (apply Z.div_le_upper_bound; lia).
  destruct (Z.eq_dec (p / q) k) as [Heq|Hne].
  - assert (p mod q = 0) as H0 by nia.
    unfold rne. rewrite H0.
    replace (2 * 0 ?= q) with Lt by (symmetry; apply Z.compare_lt_iff; lia). lia.
  - unfold rne. destruct (2 * (p mod q) ?= q); [destruct (Z.even (p / q))| |]; lia.
Qed.

Lemma ulp_pos v : 0 < ulp v.
Proof. unfold ulp. apply Z.pow_pos_nonneg; lia. Qed.

(** Below [2^1127] quanta (that is, below [2^53]) a whole number is a
    multiple of the spacing. *)
Lemma ulp_divides_quantum v :
  0 <= v < 2 ^ 1127 -> exists t, 0 < t /\ quantum = t * ulp v.
Proof.
  intros [Hv0 Hv].
  assert (Z.log2 v < 1127) as Hlog.
  { destruct (Z.eq_dec v 0) as [->|Hne]; [simpl; lia|].
    apply Z.log2_lt_pow2; lia. }
  pose proof (Z.log2_nonneg v) as Hnn.
  exists (2 ^ (quantum_exp - Z.max 0 (Z.log2 v - 52))).
  unfold quantum_exp. split.
  - apply Z.pow_pos_nonneg; lia.
  - unfold ulp, quantum, quantum_exp. rewrite <- Z.pow_add_r by lia.
    f_equal. lia.
Qed.

Lemma round_ge p q k :
  0 < q -> Z.abs p / q < 2 ^ 1127 -> k * quantum * q <= p -> k * quantum <= round p q.
Proof.
  intros Hq Hsmall Hk.
  destruct (ulp_divides_quantum (Z.abs p / q)) as [t [Ht Hqt]].
  { split; [apply Z.div_pos; lia | exact Hsmall]. }
  unfold round. pose proof (ulp_pos (Z.abs p / q)) as Hu.
  set (u := ulp (Z.abs p / q)) in *.
  assert (k * t <= rne p (q * u)) by (apply rne_ge; nia).
  rewrite Hqt. nia.
Qed.

Lemma round_le p q k :
  0 < q -> Z.abs p / q < 2 ^ 1127 -> p <= k * quantum * q -> round p q <= k * quantum.
Proof.
  intros Hq Hsmall Hk.
  destruct (ulp_divides_quantum (Z.abs p / q)) as [t [Ht Hqt]].
  { split; [apply Z.div_pos; lia | exact Hsmall]. }
  unfold round. pose proof (ulp_pos (Z.abs p / q)) as Hu.
  set (u := ulp (Z.abs p / q)) in *.
  assert (rne p (q * u) <= k * t) by (apply rne_le; nia).
  rewrite Hqt. nia.
Qed.

Lemma quantum_small a : Z.abs a < 2 ^ 53 -> Z.abs (a * quantum) / 1 < 2 ^ 1127.
Proof.
  intros Ha. rewrite Z.div_1_r, Z.abs_mul.
  pose proof quantum_pos as Hq. rewrite (Z.abs_eq quantum) by lia.
  replace (2 ^ 1127) with (2 ^ 53 * quantum)
    by (unfold quantum, quantum_exp; rewrite <- Z.pow_add_r by lia; reflexivity).
  apply Z.mul_lt_mono_pos_r; assumption.
Qed.

(** Integers below [2^53] convert exactly. *)
Lemma of_int_exact k : Z.abs k < 2 ^ 53 -> of_int k = k * quantum.
Proof.
  intros Hk. pose proof (quantum_small k Hk) as Hs. unfold of_int.
  pose proof (round_ge (k * quantum) 1 k ltac:(lia) Hs ltac:(lia)).
  pose proof (round_le (k * quantum) 1 k ltac:(lia) Hs ltac:(lia)).
  lia.
Qed.

(** [Duration.Seconds] never crosses a whole number of seconds: between
    [lo] and [hi] seconds in, between [lo] and [hi] out. *)
Lemma Duration_Seconds_between d lo hi :
  min_int64 <= d <= max_int64 ->
  lo * Second <= d <= hi * Second ->
  lo * quantum <= Duration_Seconds d <= hi * quantum.
Proof.
  unfold min_int64, max_int64, Second. intros Hd Hb.
  pose proof quantum_pos as Hq.
  pose proof (Z.quot_rem' d 1000000000) as Hqr.
  pose proof (Z.rem_bound_abs d 1000000000 ltac:(lia)) as Hr.
  unfold Duration_Seconds, Second.
  set (sec := Z.quot d 1000000000) in *. set (nsec := Z.rem d 1000000000) in *.
  assert (Z.abs sec < 2 ^ 34) as Hsec by lia.
  rewrite !of_int_exact by lia.
  unfold div, add.
  set (p := nsec * quantum * quantum). set (q := 1000000000 * quantum).
  assert (0 < q) as Hq' by (unfold q; lia).
  assert (Z.abs p / q < 2 ^ 1127) as Hsmall.
  { apply Z.div_lt_upper_bound; [exact Hq'|].
    unfold p, q. rewrite !Z.abs_mul, (Z.abs_eq quantum) by lia.
    replace (2 ^ 1127) with (2 ^ 53 * quantum)
      by (unfold quantum, quantum_exp; rewrite <- Z.pow_add_r by lia; reflexivity).
    assert (Z.abs nsec * quantum * quantum < 1000000000 * quantum * quantum) by nia.
    nia. }
  assert (forall k, k * 1000000000 <= nsec -> k * quantum <= round p q) as Hge.
  { intros k Hk. apply round_ge; [exact Hq'|exact Hsmall|]. unfold p, q. nia. }
  assert (forall k, nsec <= k * 1000000000 -> round p q <= k * quantum) as Hle.
  { intros k Hk. apply round_le; [exact Hq'|exact Hsmall|]. unfold p, q. nia. }
  pose proof (Hge (-1) ltac:(lia)). pose proof (Hle 1 ltac:(lia)).
  pose proof (Hge (lo - sec) ltac:(lia)). pose proof (Hle (hi - sec) ltac:(lia)).
  set (x := round p q) in *.
  assert (Z.abs (sec * quantum + x) / 1 < 2 ^ 1127) as Hsmall'.
  { rewrite Z.div_1_r.
    replace (2 ^ 1127) with (2 ^ 53 * quantum)
      by (unfold quantum, quantum_exp; rewrite <- Z.pow_add_r by lia; reflexivity).
    assert (Z.abs (sec * quantum + x) <= (Z.abs sec + 1) * quantum) by nia.
    nia. }
  split.
  - apply round_ge; [lia|exact Hsmall'|nia].
  - apply round_le; [lia|exact Hsmall'|nia].
Qed.

(** So the seconds [expired] compares with [ExpireItem] are read back
    without an [Atoi] error, and lie where the duration does. *)
Lemma seconds_between d lo hi :
  min_int64 <= d <= max_int64 ->
  lo * Second <= d <= hi * Second ->
  exists sec, atoi_sprintf_0f (Duration_Seconds d) = Some sec /\ lo <= sec <= hi.
Proof.
  intros Hd Hb. pose proof quantum_pos as Hq.
  assert (forall lo hi, lo * Second <= d <= hi * Second ->
            lo <= rne (Duration_Seconds d) quantum <= hi) as Hrne.
  { intros lo' hi' Hb'.
    destruct (Duration_Seconds_between d lo' hi' Hd Hb') as [H1 H2].
    split; [apply rne_ge | apply rne_le]; assumption. }
  pose proof (Hrne lo hi Hb) as Hin.
  pose proof (Hrne (-9223372037) 9223372037) as Hrange.
  unfold min_int64, max_int64, Second in *. specialize (Hrange ltac:(lia)).
  unfold atoi_sprintf_0f, min_int64, max_int64.
  exists (rne (Duration_Seconds d) quantum). split; [|exact Hin].
  replace (- 2 ^ 63 <=? rne (Duration_Seconds d) quantum) with true
    by (symmetry; apply Z.leb_le; lia).
  replace (rne (Duration_Seconds d) quantum <=? 2 ^ 63 - 1) with true
    by (symmetry; apply Z.leb_le; lia).
  reflexivity.
Qed.

End Rounding.

(** On durations around the rounding points the embedding of binary64
    agrees with the kernel's own floats. *)
Example Duration_Seconds_agrees_with_kernel_floats :
  Forall (fun d => Float64.of_prim (prim_Duration_Seconds d) = Some (Duration_Seconds d))
         [0; 1; 499999999; 500000000; 500000001; 600000000; 999999999;
          1000000000; 1500000000; 2500000000; -400000000; -600000000;
          4194304499999999; 8589934593499999999; max_int64; min_int64].
Proof. repeat constructor; vm_compute; reflexivity. Qed.

(** ** Staleness: the aged-out check *)

Lemma Time_Sub_range t u : min_int64 <= Time_Sub t u <= max_int64.
Proof. unfold Time_Sub, min_int64, max_int64. lia. Qed.




(** ** Operations that only delete *)

Lemma pruned_refl c : pruned c c.
Proof. unfold pruned. intuition. Qed.

Lemma pruned_trans c1 c2 c3 : pruned c1 c2 -> pruned c2 c3 -> pruned c1 c3.
Proof.
  unfold pruned. intros (?&?&?&?&?&?&H12) (?&?&?&?&?&?&H23).
  repeat split; try congruence; try tauto.
  intros name. destruct (H23 name) as [Hn | Hn]; rewrite Hn; [left; reflexivity | apply H12].
Qed.

Lemma pruned_delete_item c name : pruned c (delete_item c name).
Proof.
  unfold pruned, delete_item.
  destruct (items c) as [m|] eqn:Hm; simpl.
  - split; [reflexivity|]. split; [reflexivity|]. split; [reflexivity|].
    split; [reflexivity|]. split; [reflexivity|]. split; [split; discriminate|].
    intros name'. unfold lookup_item; simpl. rewrite Hm, lookup_delete.
    case_decide; [left|right]; reflexivity.
  - rewrite Hm. split; [reflexivity|]. split; [reflexivity|]. split; [reflexivity|].
    split; [reflexivity|]. split; [reflexivity|]. split; [tauto|].
    intros name'. right. reflexivity.
Qed.

Lemma pruned_foldl {A} (f : FileCache -> A -> FileCache) (l : list A) c :
  (forall c a, pruned c (f c a)) -> pruned c (foldl f c l).
Proof.
  intros Hf. revert c. induction l as [|a l IH]; intros c; simpl.
  - apply pruned_refl.
  - eapply pruned_trans; [apply Hf | apply IH].
Qed.

Lemma pruned_expire_oldest force w ord c : pruned c (expire_oldest force w ord c).
Proof.
  unfold expire_oldest.
  destruct (foldl _ _ _) as [oldest oldest_name].
  destruct (negb _); [apply pruned_delete_item | apply pruned_refl].
Qed.

Lemma pruned_sweep w names c : pruned c (sweep w c names).
Proof.
  unfold sweep. apply pruned_foldl. intros c' name.
  destruct (item_expired w c' name); [apply pruned_delete_item | apply pruned_refl].
Qed.

Lemma pruned_evict_excess fuel w ord c c' :
  evict_excess fuel w ord c = Some c' -> pruned c c'.
Proof.
  revert c. induction fuel as [|fuel IH]; intros c; simpl.
  - destruct (MaxItems c <? Size c); [discriminate|].
    intros [= <-]. apply pruned_refl.
  - destruct (MaxItems c <? Size c).
    + intros H. eapply pruned_trans; [apply pruned_expire_oldest | apply IH, H].
    + intros [= <-]. apply pruned_refl.
Qed.

Lemma pruned_lookup c c' name itm :
  pruned c c' -> lookup_item c' name = Some itm -> lookup_item c name = Some itm.
Proof.
  intros (_&_&_&_&_&_&H) Hl. destruct (H name) as [Hn|He]; congruence.
Qed.

(** Staleness of a key looks at that key's entry and at [ExpireItem] only. *)
Lemma item_expired_ext w c c' name :
  lookup_item c' name = lookup_item c name -> ExpireItem c' = ExpireItem c ->
  item_expired w c' name = item_expired w c name.
Proof.
  intros Hl He. unfold item_expired, changed, expired. rewrite Hl, He. reflexivity.
Qed.

Lemma item_expired_pruned w c c' name :
  pruned c c' -> is_Some (lookup_item c' name) ->
  item_expired w c' name = item_expired w c name.
Proof.
  intros Hp [itm Hitm]. apply item_expired_ext.
  - rewrite Hitm. symmetry. eapply pruned_lookup; eassumption.
  - apply Hp.
Qed.

(** ** Inert caches *)

Lemma NewCache_inert : inert NewCache.
Proof. reflexivity. Qed.

Lemma NewDefaultCache_inert : inert NewDefaultCache.
Proof. reflexivity. Qed.

Lemma Stop_inert ord c c' : Stop ord c = Ret c' -> inert c'.
Proof.
  unfold Stop. destruct (close_in_pipe c) as [c1| |]; simpl; [|discriminate..].
  intros [= <-]. reflexivity.
Qed.

(** C10. On an inert cache (its map is nil: a cache that was never started,
    [NewCache_inert], or was stopped, [Stop_inert]) the accessors that only
    read report an empty cache and none of them panics: [Size] and
    [FileSize] are 0, [StoredFiles] is empty, [InCache] is false and
    [GetItem] finds nothing, for every key. *)
Theorem inert_cache_reads_as_empty ord c :
  inert c ->
  Size c = 0 /\ FileSize ord c = 0 /\ StoredFiles ord c = [] /\
  forall name, InCache c name = false /\ GetItem c name = ([], false).
Proof.
  unfold inert. intros Hc.
  unfold Size, FileSize, StoredFiles, InCache, GetItem, range, lookup_item.
  rewrite Hc. repeat split; reflexivity.
Qed.

Lemma inert_cache_reads_as_empty_witness :
  Size NewCache = 0 /\ FileSize map_to_list NewCache = 0 /\
  StoredFiles map_to_list NewCache = [] /\
  forall name, InCache NewCache name = false /\ GetItem NewCache name = ([], false).
Proof. exact (inert_cache_reads_as_empty map_to_list NewCache NewCache_inert). Defined.

(** ** Start and Stop *)

Lemma close_in_pipe_nil c : in_pipe c = None -> close_in_pipe c = Ret c.
Proof. unfold close_in_pipe. intros ->. reflexivity. Qed.

Lemma close_in_pipe_open c buf :
  in_pipe c = Some (mkChan false buf) ->
  close_in_pipe c = Ret (set_in_pipe c (Some (mkChan true buf))).
Proof. unfold close_in_pipe. intros ->. reflexivity. Qed.

Lemma close_in_pipe_closed c buf :
  in_pipe c = Some (mkChan true buf) ->
  close_in_pipe c = Panic "close of closed channel".
Proof. unfold close_in_pipe. intros ->. reflexivity. Qed.

(** The loop of [Stop] deletes and touches nothing else. *)
Lemma pruned_Stop_loop ord c :
  pruned c (foldl (fun c e => delete_item c e.1) c (range ord c)).
Proof. apply pruned_foldl. intros c' e. apply pruned_delete_item. Qed.

Lemma Stop_from c1 ord c :
  close_in_pipe c = Ret c1 ->
  exists c2, Stop ord c = Ret c2 /\ items c2 = None /\ in_pipe c2 = in_pipe c1.
Proof.
  intros Hc. unfold Stop. rewrite Hc. simpl.
  eexists. split; [reflexivity|]. split; [reflexivity|].
  simpl. apply (pruned_Stop_loop ord c1).
Qed.

(** Stopping a cache that was never started is harmless. *)
Lemma Stop_never_started ord c :
  in_pipe c = None ->
  exists c', Stop ord c = Ret c' /\ items c' = None /\ in_pipe c' = None.
Proof.
  intros Hp. destruct (Stop_from c ord c (close_in_pipe_nil c Hp)) as [c' [H1 [H2 H3]]].
  exists c'. rewrite H3, Hp in *. auto.
Qed.

Lemma Start_fresh c c1 gs :
  Start c = Ret (c1, gs) ->
  items c1 = Some ∅ /\ in_pipe c1 = Some (mkChan false []).
Proof.
  unfold Start. destruct (close_in_pipe c) as [c0| |]; simpl; [|discriminate..].
  intros [= <- _]. split; reflexivity.
Qed.

(** C6, on the code. After [Start], a second [Start] does not panic and
    leaves a fresh map and a fresh pipe; [Stop] does not panic either and
    leaves the cache inert.  But [Stop] closes the pipe without setting the
    field to nil, so on the cache it leaves a second [Stop] panics ("close of
    closed channel"), and so does a [Start]. *)
Theorem Stop_twice_panics ord c c1 gs :
  Start c = Ret (c1, gs) ->
  (exists c2 gs2, Start c1 = Ret (c2, gs2) /\
                  items c2 = Some ∅ /\ in_pipe c2 = Some (mkChan false [])) /\
  (exists c2, Stop ord c1 = Ret c2 /\ inert c2 /\
              Stop ord c2 = Panic "close of closed channel" /\
              Start c2 = Panic "close of closed channel").
Proof.
  intros Hs. destruct (Start_fresh c c1 gs Hs) as [Hitems Hpipe]. split.
  - unfold Start. rewrite (close_in_pipe_open c1 [] Hpipe). simpl.
    eexists _, _. split; [reflexivity|]. split; reflexivity.
  - destruct (Stop_from _ ord c1 (close_in_pipe_open c1 [] Hpipe))
      as [c2 [Hstop [Hnil Hp2]]].
    exists c2. split; [exact Hstop|]. split; [exact Hnil|].
    simpl in Hp2. unfold Stop, Start.
    rewrite (close_in_pipe_closed c2 [] Hp2). split; reflexivity.
Qed.

Lemma Stop_twice_panics_witness :
  exists c2, Stop map_to_list (mkFileCache (Some ∅) (Some (mkChan false [])) 0 0 0 0) = Ret c2 /\
             inert c2 /\
             Stop map_to_list c2 = Panic "close of closed channel" /\
             Start c2 = Panic "close of closed channel".
Proof.
  exact (proj2 (Stop_twice_panics map_to_list NewCache
                  (mkFileCache (Some ∅) (Some (mkChan false [])) 0 0 0 0)
                  [GoItemListener; GoVaccuum] eq_refl)).
Defined.

(** ** Reads that miss the cache *)

(** C5, on the code. For a key that is not cached, [ReadFile] returns the
    bytes read with [ItemNotInCache] when the read succeeds, and the error of
    the filesystem (which is not [ItemNotInCache]) when it fails; both start
    [Cache(name)] in the background.  [ReadFileString] returns the same
    content as a string on success, but its error is nil in both cases: the
    block-local [err] hides the result it was meant to set. *)
Theorem ReadFileString_returns_nil_error w c name :
  InCache c name = false ->
  (forall content, readFile w name = (content, None) ->
     ReadFile w c name = (content, Some ItemNotInCache, [GoCache name]) /\
     ReadFileString w c name =
       (String.string_of_list_byte content, None, [GoCache name])) /\
  (forall content e, readFile w name = (content, Some e) ->
     ReadFile w c name = (content, Some (OSError e), [GoCache name]) /\
     OSError e <> ItemNotInCache /\
     ReadFileString w c name = (EmptyString, None, [GoCache name])).
Proof.
  intros Hmiss. unfold ReadFile, ReadFileString. rewrite Hmiss. split.
  - intros content Hr. rewrite Hr. split; reflexivity.
  - intros content e Hr. rewrite Hr. split; [reflexivity|]. split; [discriminate|reflexivity].
Qed.

Lemma ReadFileString_returns_nil_error_witness :
  (ReadFile (disk 0) NewCache "a" = (hi, Some ItemNotInCache, [GoCache "a"]) /\
   ReadFileString (disk 0) NewCache "a" = ("hi"%string, None, [GoCache "a"])) /\
  (ReadFile (disk 0) NewCache "gone" =
     ([], Some (OSError "no such file or directory"), [GoCache "gone"]) /\
   OSError "no such file or directory" <> ItemNotInCache /\
   ReadFileString (disk 0) NewCache "gone" = (EmptyString, None, [GoCache "gone"])).
Proof.
  split.
  - exact (proj1 (ReadFileString_returns_nil_error (disk 0) NewCache "a" eq_refl)
             hi eq_refl).
  - exact (proj2 (ReadFileString_returns_nil_error (disk 0) NewCache "gone" eq_refl)
             [] "no such file or directory"%string eq_refl).
Defined.

(** ** Reads that hit the cache *)

Lemma lookup_item_set_in_pipe c p name :
  lookup_item (set_in_pipe c p) name = lookup_item c name.
Proof. reflexivity. Qed.

(** What [add_item] leaves under a key was there before, or is the entry it
    has just built. *)
Lemma add_item_lookup w c name r k itm' :
  add_item w c name = Ret r ->
  lookup_item r.2 k = Some itm' ->
  lookup_item c k = Some itm' \/ (k = name /\ populated w c name itm').
Proof.
  unfold add_item.
  destruct (InCache c name && negb (item_expired w c name)).
  { intros [= <-] Hl. left. exact Hl. }
  set (c1 := if InCache c name then delete_item c name else c).
  assert (pruned c c1) as Hp
    by (unfold c1; destruct (InCache c name); [apply pruned_delete_item | apply pruned_refl]).
  assert (forall err, Ret (err, c1) = Ret r -> lookup_item r.2 k = Some itm' ->
            lookup_item c k = Some itm' \/ (k = name /\ populated w c name itm'))
    as Hsame.
  { intros err [= <-] Hl. left. eapply pruned_lookup; eassumption. }
  destruct (stat w name) as [e|fi] eqn:Hstat; [apply Hsame|].
  destruct (FileInfo.IsDir fi) eqn:Hdir; [apply Hsame|].
  replace (MaxSize c1) with (MaxSize c) by (symmetry; apply Hp).
  destruct (MaxSize c <? FileInfo.Size fi) eqn:Hsize; [apply Hsame|].
  destruct (readFile w name) as [content [e|]] eqn:Hread; [apply Hsame|].
  unfold assign_item. destruct (items c1) as [m|] eqn:Hm; simpl; [|discriminate].
  set (c2 := set_items c1 _).
  intros Hr Hl.
  assert (r.2 = c2) as Hr2
    by (destruct (negb (InCache c2 name)); injection Hr as <-; reflexivity).
  rewrite Hr2 in Hl. unfold c2 in Hl. rewrite lookup_item_set_items, lookup_insert in Hl.
  case_decide as Hk.
  - right. injection Hl as <-. split; [symmetry; exact Hk|].
    exists fi, content. apply Z.ltb_ge in Hsize. auto.
  - left. apply (pruned_lookup c c1); [exact Hp|]. unfold lookup_item. rewrite Hm. exact Hl.
Qed.

Lemma pruned_Cache_eviction w ord c :
  pruned c (if Size c =? MaxItems c then expire_oldest true w ord c else c).
Proof. destruct (Size c =? MaxItems c); [apply pruned_expire_oldest | apply pruned_refl]. Qed.

(** A transition leaves an entry as it was, deletes it, or puts a freshly
    populated one in its place. *)
Lemma step_lookup w ord o c c' name itm' :
  step w ord o c = Ret c' ->
  lookup_item c' name = Some itm' ->
  lookup_item c name = Some itm' \/
  (populated w c name itm' /\ (o = OpCacheNow name \/ o = OpItemListener)).
Proof.
  intros Hstep Hitm'.
  destruct o as [k|k| | |k|k|k|mi ms ei ev| |]; simpl in Hstep.
  - injection Hstep as <-. left. exact Hitm'.
  - injection Hstep as <-. left. exact Hitm'.
  - destruct (Start c) as [[c1 gs]| |] eqn:Hs; simpl in Hstep; [|discriminate..].
    injection Hstep as <-. apply Start_fresh in Hs as [Hi _].
    unfold lookup_item in Hitm'. rewrite Hi in Hitm'. discriminate.
  - apply Stop_inert in Hstep. unfold inert in Hstep.
    unfold lookup_item in Hitm'. rewrite Hstep in Hitm'. discriminate.
  - unfold Cache, send in Hstep.
    pose proof (pruned_Cache_eviction w ord c) as Hp.
    set (c1 := if Size c =? MaxItems c then _ else _) in *.
    destruct (in_pipe c1) as [ch|]; [|discriminate].
    destruct (closed ch); [discriminate|].
    destruct (_ <? _); [|discriminate].
    injection Hstep as <-. left. apply (pruned_lookup c c1 name itm' Hp). exact Hitm'.
  - unfold CacheNow in Hstep.
    pose proof (pruned_Cache_eviction w ord c) as Hp.
    set (c1 := if Size c =? MaxItems c then _ else _) in *.
    destruct (add_item w c1 k) as [r| |] eqn:Ha; simpl in Hstep; [|discriminate..].
    injection Hstep as <-.
    destruct (add_item_lookup w c1 k r name itm' Ha Hitm') as [Hl|[-> Hpop]].
    + left. apply (pruned_lookup c c1 name itm' Hp Hl).
    + right. split; [|left; reflexivity].
      destruct Hpop as (fi & content & H1 & H2 & H3 & H4 & H5).
      exists fi, content. replace (MaxSize c) with (MaxSize c1) by apply Hp. auto.
  - injection Hstep as <-. left. unfold Remove in Hitm'.
    destruct (lookup_item c k); simpl in Hitm'.
    + apply (pruned_lookup c _ name itm' (pruned_delete_item c k) Hitm').
    + exact Hitm'.
  - injection Hstep as <-. left. exact Hitm'.
  - unfold item_listener in Hstep.
    destruct (in_pipe c) as [ch|]; [|discriminate].
    destruct (buffer ch) as [|k rest].
    + destruct (closed ch); [|discriminate]. injection Hstep as <-. left. exact Hitm'.
    + destruct (add_item _ _ k) as [r| |] eqn:Ha; simpl in Hstep; [|discriminate..].
      injection Hstep as <-.
      destruct (add_item_lookup _ _ k r name itm' Ha Hitm') as [Hl|[-> Hpop]].
      * left. exact Hl.
      * right. split; [exact Hpop | right; reflexivity].
  - unfold vaccuum in Hstep. destruct (items c) as [m|] eqn:Hm.
    + destruct (evict_excess _ _ _ _) as [c1|] eqn:He; [|discriminate].
      injection Hstep as <-. left.
      apply (pruned_lookup c c1 name itm'); [|exact Hitm'].
      eapply pruned_trans; [apply pruned_sweep | eapply pruned_evict_excess, He].
    + injection Hstep as <-. left. exact Hitm'.
Qed.

(** C9. For a cached key, [GetItem] and [ReadFile] return the cached
    content ([ReadFile] with a nil error and without starting a goroutine)
    and leave the cache as it is; whatever transition the cache takes, the
    entry's [Lastaccess] changes only when the entry is populated again (by
    [CacheNow] for that key, or by the listener), and then it is the time of
    that population. *)
Theorem cache_hit_leaves_the_cache_unchanged w ord c name itm :
  lookup_item c name = Some itm ->
  GetItem c name = (cacheItem.Content itm, true) /\
  ReadFile w c name = (cacheItem.Content itm, None, []) /\
  step w ord (OpGetItem name) c = Ret c /\
  step w ord (OpReadFile name) c = Ret c /\
  forall o c' itm',
    step w ord o c = Ret c' -> lookup_item c' name = Some itm' ->
    cacheItem.Lastaccess itm' <> cacheItem.Lastaccess itm ->
    cacheItem.Lastaccess itm' = now w /\ (o = OpCacheNow name \/ o = OpItemListener).
Proof.
  intros Hitm.
  assert (GetItem c name = (cacheItem.Content itm, true)) as Hget
    by (unfold GetItem; rewrite Hitm; reflexivity).
  split; [exact Hget|]. split.
  { unfold ReadFile, InCache. rewrite Hitm, Hget. reflexivity. }
  split; [reflexivity|]. split; [reflexivity|].
  intros o c' itm' Hstep Hitm' Hne.
  destruct (step_lookup w ord o c c' name itm' Hstep Hitm') as [Hsame|[Hpop Ho]].
  - congruence.
  - split; [|exact Ho]. destruct Hpop as (fi & content & _ & _ & _ & _ & ->). reflexivity.
Qed.

Lemma cache_hit_leaves_the_cache_unchanged_witness :
  GetItem (cache_with_a 0) "a" = (hi, true) /\
  ReadFile (disk 5) (cache_with_a 0) "a" = (hi, None, []) /\
  step (disk 5) map_to_list (OpReadFile "a") (cache_with_a 0) = Ret (cache_with_a 0).
Proof.
  pose proof (cache_hit_leaves_the_cache_unchanged (disk 5) map_to_list (cache_with_a 0)
                "a" (cacheItem.mk hi 2 0 10) eq_refl) as H.
  split; [exact (proj1 H)|]. split; [exact (proj1 (proj2 H))|].
  exact (proj1 (proj2 (proj2 (proj2 H)))).
Defined.

(** ** Population of a file that is too large *)

(** The claim as the specification words it fails: ["big"] is cached, has
    grown beyond [MaxSize] since, and [CacheNow] reports [ItemTooLarge] but
    has deleted the entry first. *)
Lemma too_large_deletes_the_stale_entry :
  ~ (exists c', CacheNow (disk 0) map_to_list cache_with_big "big"
                = Ret (Some ItemTooLarge, c') /\
                items c' = items cache_with_big).
Proof.
  intros [c' [Hrun Hsame]].
  assert (lookup_item c' "big" = lookup_item cache_with_big "big") as Hl
    by (unfold lookup_item; rewrite Hsame; reflexivity).
  vm_compute in Hrun. injection Hrun as <-.
  vm_compute in Hl. discriminate.
Qed.

(** C2, amended. [add_item] on a regular file whose size exceeds [MaxSize]:
    when the key is not cached it reports [ItemTooLarge] and leaves the cache
    unchanged; when a stale entry for the key is cached it reports
    [ItemTooLarge] and has deleted that entry, every other entry being left
    as it was; when a fresh entry for the key is cached it returns nil and
    leaves the cache unchanged.  [CacheNow] is [add_item] when the entry
    count differs from [MaxItems]. *)
Theorem add_item_too_large w ord c name fi :
  stat w name = inr fi -> FileInfo.IsDir fi = false -> MaxSize c < FileInfo.Size fi ->
  (lookup_item c name = None ->
     add_item w c name = Ret (Some ItemTooLarge, c)) /\
  (is_Some (lookup_item c name) -> item_expired w c name = true ->
     add_item w c name = Ret (Some ItemTooLarge, delete_item c name) /\
     lookup_item (delete_item c name) name = None /\
     forall k, k <> name -> lookup_item (delete_item c name) k = lookup_item c k) /\
  (is_Some (lookup_item c name) -> item_expired w c name = false ->
     add_item w c name = Ret (None, c)) /\
  (Size c <> MaxItems c -> CacheNow w ord c name = add_item w c name).
Proof.
  intros Hstat Hdir Hsize.
  assert (forall c1, MaxSize c1 = MaxSize c ->
            match stat w name with
            | inl e => Ret (Some (OSError e), c1)
            | inr fi =>
                if FileInfo.IsDir fi then Ret (Some ItemIsDirectory, c1)
                else if MaxSize c1 <? FileInfo.Size fi then Ret (Some ItemTooLarge, c1)
                else
                  let '(content, err) := readFile w name in
                  match err with
                  | Some e => Ret (Some (OSError e), c1)
                  | None =>
                      c2 <- assign_item c1 name
                              (cacheItem.mk content (FileInfo.Size fi) (now w)
                                 (FileInfo.ModTime fi)) ;;
                      if negb (InCache c2 name) then Ret (Some ItemNotInCache, c2)
                      else Ret (None, c2)
                  end
            end = Ret (Some ItemTooLarge, c1)) as Htail.
  { intros c1 Hmax. rewrite Hstat, Hdir, Hmax.
    replace (MaxSize c <? FileInfo.Size fi) with true by (symmetry; apply Z.ltb_lt; exact Hsize).
    reflexivity. }
  split; [|split; [|split]].
  - intros Hnone. unfold add_item, InCache. rewrite Hnone. simpl. apply Htail. reflexivity.
  - intros [itm Hitm] Hexp. split; [|split].
    + unfold add_item, InCache. rewrite Hitm, Hexp. simpl. apply Htail.
      apply (pruned_delete_item c name).
    + rewrite lookup_item_delete_item. case_decide; [reflexivity|congruence].
    + intros k Hk. rewrite lookup_item_delete_item. case_decide; [congruence|reflexivity].
  - intros [itm Hitm] Hexp. unfold add_item, InCache. rewrite Hitm, Hexp. reflexivity.
  - intros Hne. unfold CacheNow.
    replace (Size c =? MaxItems c) with false by (symmetry; apply Z.eqb_neq; exact Hne).
    reflexivity.
Qed.

Lemma add_item_too_large_witness :
  add_item (disk 0) (cache_with_a 0) "big" = Ret (Some ItemTooLarge, cache_with_a 0) /\
  add_item (disk 0) cache_with_big "big"
  = Ret (Some ItemTooLarge, delete_item cache_with_big "big").
Proof.
  split.
  - exact (proj1 (add_item_too_large (disk 0) map_to_list (cache_with_a 0) "big"
                    (FileInfo.mk 5000 false 11) eq_refl eq_refl eq_refl) eq_refl).
  - exact (proj1 (proj1 (proj2 (add_item_too_large (disk 0) map_to_list cache_with_big "big"
                                  (FileInfo.mk 5000 false 11) eq_refl eq_refl eq_refl))
                    (ex_intro _ (cacheItem.mk hi 2 0 5) eq_refl) eq_refl)).
Defined.

(** ** Eviction of the oldest entry *)

(** Once a name is held, the forced scan keeps the earliest entry with the
    smallest [Lastaccess] seen so far. *)
Lemma expire_oldest_scan (l : list (string * cacheItem.t)) t n :
  n <> EmptyString ->
  (forall e, e ∈ l -> e.1 <> EmptyString) ->
  let r := foldl (expire_oldest_visit true) (t, n) l in
  r.2 <> EmptyString /\ r.1 <= t /\
  (forall e, e ∈ l -> r.1 <= cacheItem.Lastaccess e.2) /\
  (r = (t, n) \/ exists i, (r.2, i) ∈ l /\ cacheItem.Lastaccess i = r.1).
Proof.
  revert t n. induction l as [|[k i] l IH]; intros t n Hn Hl; simpl.
  - split; [exact Hn|]. split; [lia|]. split; [|left; reflexivity].
    intros e He. inversion He.
  - assert (String.eqb n "" = false) as -> by (apply String.eqb_neq; exact Hn).
    assert (k <> EmptyString) as Hk by (apply (Hl (k, i)); left).
    assert (forall e, e ∈ l -> e.1 <> EmptyString) as Hl'
      by (intros e He; apply Hl; right; exact He).
    unfold Time_Before. destruct (Z.ltb_spec (cacheItem.Lastaccess i) t) as [Hlt|Hge].
    + destruct (IH (cacheItem.Lastaccess i) k Hk Hl') as (H1 & H2 & H3 & H4).
      split; [exact H1|]. split; [lia|]. split.
      * intros e He. apply elem_of_cons in He as [->|He]; [exact H2 | apply H3, He].
      * right. destruct H4 as [H4|[i' [H4 H5]]].
        -- exists i. rewrite H4. split; [left|reflexivity].
        -- exists i'. split; [right; exact H4 | exact H5].
    + destruct (IH t n Hn Hl') as (H1 & H2 & H3 & H4).
      split; [exact H1|]. split; [exact H2|]. split.
      * intros e He. apply elem_of_cons in He as [->|He]; [simpl; lia | apply H3, He].
      * destruct H4 as [H4|[i' [H4 H5]]]; [left; exact H4|].
        right. exists i'. split; [right; exact H4 | exact H5].
Qed.

(** The forced scan of a non-empty list of entries with non-empty names ends
    on one of them, with the smallest [Lastaccess] of all. *)
Lemma expire_oldest_scan_forced (l : list (string * cacheItem.t)) t0 :
  l <> [] ->
  (forall e, e ∈ l -> e.1 <> EmptyString) ->
  let r := foldl (expire_oldest_visit true) (t0, EmptyString) l in
  r.2 <> EmptyString /\
  (exists i, (r.2, i) ∈ l /\ cacheItem.Lastaccess i = r.1) /\
  (forall e, e ∈ l -> r.1 <= cacheItem.Lastaccess e.2).
Proof.
  destruct l as [|[k i] l]; [congruence|]. intros _ Hl. simpl.
  assert (k <> EmptyString) as Hk by (apply (Hl (k, i)); left).
  assert (forall e, e ∈ l -> e.1 <> EmptyString) as Hl'
    by (intros e He; apply Hl; right; exact He).
  destruct (expire_oldest_scan l (cacheItem.Lastaccess i) k Hk Hl') as (H1 & H2 & H3 & H4).
  split; [exact H1|]. split.
  - destruct H4 as [H4|[i' [H4 H5]]].
    + exists i. rewrite H4. split; [left|reflexivity].
    + exists i'. split; [right; exact H4 | exact H5].
  - intros e He. apply elem_of_cons in He as [->|He]; [exact H2 | apply H3, He].
Qed.

Lemma elem_of_enumeration ord (m : gmap string cacheItem.t) k i :
  enumerates ord -> (k, i) ∈ ord m <-> m !! k = Some i.
Proof. intros Hord. rewrite (Hord m). apply elem_of_map_to_list. Qed.

(** In forced mode, on a non-empty map without the empty key,
    [expire_oldest] deletes exactly one entry, and no entry was accessed
    earlier than the one it deletes. *)
Lemma expire_oldest_forced w ord c (m : gmap string cacheItem.t) :
  enumerates ord -> items c = Some m -> m !! EmptyString = None -> m <> ∅ ->
  exists victim itm,
    m !! victim = Some itm /\
    (forall k i, m !! k = Some i -> cacheItem.Lastaccess itm <= cacheItem.Lastaccess i) /\
    expire_oldest true w ord c = set_items c (Some (delete victim m)).
Proof.
  intros Hord Hm Hempty Hne.
  assert (ord m <> []) as Hnil.
  { intros Hnil. apply Hne, map_to_list_empty_iff.
    apply Permutation_nil. rewrite <- (Hord m), Hnil. reflexivity. }
  assert (forall e, e ∈ ord m -> e.1 <> EmptyString) as Hnames.
  { intros [k i] He Hk. simpl in Hk. subst k.
    apply (elem_of_enumeration ord m _ i Hord) in He. congruence. }
  destruct (expire_oldest_scan_forced (ord m) (now w) Hnil Hnames) as (H1 & [i [H2 H3]] & H4).
  unfold expire_oldest, range. rewrite Hm.
  destruct (foldl _ _ _) as [oldest oldest_name]. simpl in *.
  exists oldest_name, i. split; [apply (elem_of_enumeration ord m _ _ Hord), H2|]. split.
  - intros k i' Hk. rewrite H3. apply (H4 (k, i')).
    apply (elem_of_enumeration ord m _ _ Hord), Hk.
  - assert (String.eqb oldest_name "" = false) as -> by (apply String.eqb_neq; exact H1).
    simpl. unfold delete_item. rewrite Hm. reflexivity.
Qed.

Lemma Size_set_items c (m : gmap string cacheItem.t) :
  Size (set_items c (Some m)) = Z.of_nat (size m).
Proof. reflexivity. Qed.

(** [add_item] on a started cache returns, and adds at most one entry. *)
Lemma add_item_Size w c name (m : gmap string cacheItem.t) :
  items c = Some m ->
  exists err c', add_item w c name = Ret (err, c') /\
                 Size c' <= Size c + 1 /\ MaxItems c' = MaxItems c /\
                 is_Some (items c').
Proof.
  intros Hm. unfold add_item.
  destruct (InCache c name && negb (item_expired w c name)).
  { exists None, c. rewrite Hm. split; [reflexivity|]. split; [lia|]. split; eauto. }
  set (c1 := if InCache c name then delete_item c name else c).
  assert (exists m1 : gmap string cacheItem.t,
            items c1 = Some m1 /\ (size m1 <= size m)%nat /\ MaxItems c1 = MaxItems c)
    as (m1 & Hm1 & Hsz & Hmax).
  { unfold c1. destruct (InCache c name).
    - unfold delete_item. rewrite Hm. exists (delete name m). simpl.
      split; [reflexivity|]. split; [|reflexivity].
      rewrite map_size_delete. destruct (m !! name); simpl; lia.
    - exists m. auto. }
  assert (Size c1 <= Size c + 1) as Hc1
    by (unfold Size; rewrite Hm, Hm1; lia).
  assert (forall err : option error, exists err' c', Ret (err, c1) = Ret (err', c') /\
            Size c' <= Size c + 1 /\ MaxItems c' = MaxItems c /\ is_Some (items c')) as Hsame.
  { intros err. exists err, c1. rewrite Hm1. split; [reflexivity|]. split; [exact Hc1|].
    split; eauto. }
  destruct (stat w name) as [e|fi]; [apply Hsame|].
  destruct (FileInfo.IsDir fi); [apply Hsame|].
  destruct (MaxSize c1 <? FileInfo.Size fi); [apply Hsame|].
  destruct (readFile w name) as [content [e|]]; [apply Hsame|].
  unfold assign_item. rewrite Hm1. simpl.
  set (c2 := set_items c1 _).
  assert (Size c2 <= Size c + 1 /\ MaxItems c2 = MaxItems c /\ is_Some (items c2)) as Hc2.
  { unfold c2. rewrite Size_set_items. unfold Size. rewrite Hm. simpl.
    split; [|split; eauto].
    rewrite map_size_insert. destruct (m1 !! name); simpl; lia. }
  destruct (negb (InCache c2 name)); eexists _, c2; (split; [reflexivity | exact Hc2]).
Qed.

(** ** Population at capacity *)

(** The claim as the specification words it fails: with [MaxItems = 0] the
    first [CacheNow] takes the count from 0 to 1, beyond [MaxItems], and
    there was nothing to evict. *)
Lemma CacheNow_exceeds_zero_MaxItems :
  exists c', CacheNow (disk 0) map_to_list cache_without_room "a" = Ret (None, c') /\
             ~ (Size c' <= MaxItems c').
Proof.
  eexists. split; [vm_compute; reflexivity|]. vm_compute. intros H. apply H. reflexivity.
Qed.

(** Below capacity nothing is evicted and the count stays within
    [MaxItems]. *)
Lemma CacheNow_below_capacity w ord c name (m : gmap string cacheItem.t) :
  items c = Some m -> Size c < MaxItems c ->
  CacheNow w ord c name = add_item w c name /\
  exists err c', CacheNow w ord c name = Ret (err, c') /\ Size c' <= MaxItems c'.
Proof.
  intros Hm Hlt. unfold CacheNow.
  replace (Size c =? MaxItems c) with false by (symmetry; apply Z.eqb_neq; lia).
  split; [reflexivity|].
  destruct (add_item_Size w c name m Hm) as (err & c' & Hrun & Hsz & Hmax & _).
  exists err, c'. split; [exact Hrun | lia].
Qed.

(** C3, amended. When the entry count equals [MaxItems] and [MaxItems] is
    at least 1 (no key being the empty path), [CacheNow] first evicts exactly
    one entry, one that no other entry precedes in [Lastaccess] (ties
    included), and then populates, so that on return the entry count is at
    most [MaxItems]. *)
Theorem CacheNow_at_capacity_evicts_oldest w ord c name (m : gmap string cacheItem.t) :
  enumerates ord -> items c = Some m -> m !! EmptyString = None ->
  Size c = MaxItems c -> 0 < MaxItems c ->
  exists victim itm,
    m !! victim = Some itm /\
    (forall k i, m !! k = Some i -> cacheItem.Lastaccess itm <= cacheItem.Lastaccess i) /\
    expire_oldest true w ord c = set_items c (Some (delete victim m)) /\
    Size (expire_oldest true w ord c) = Size c - 1 /\
    exists err c', CacheNow w ord c name = Ret (err, c') /\ Size c' <= MaxItems c'.
Proof.
  intros Hord Hm Hempty Hfull Hpos.
  assert (m <> ∅) as Hne.
  { intros ->. unfold Size in Hfull. rewrite Hm, map_size_empty in Hfull. lia. }
  destruct (expire_oldest_forced w ord c m Hord Hm Hempty Hne) as (victim & itm & Hv & Hmin & He).
  exists victim, itm. split; [exact Hv|]. split; [exact Hmin|]. split; [exact He|].
  assert (Size (expire_oldest true w ord c) = Size c - 1) as Hsz.
  { rewrite He, Size_set_items. unfold Size. rewrite Hm.
    rewrite map_size_delete, Hv.
    assert (size m <> 0%nat) by (apply map_size_non_empty_iff; exact Hne).
    simpl. lia. }
  split; [exact Hsz|].
  unfold CacheNow. rewrite Hfull, Z.eqb_refl.
  destruct (add_item_Size w (expire_oldest true w ord c) name (delete victim m))
    as (err & c' & Hrun & Hsz' & Hmax & _).
  { rewrite He. reflexivity. }
  exists err, c'. split; [exact Hrun|].
  rewrite Hmax. replace (MaxItems (expire_oldest true w ord c)) with (MaxItems c)
    by (symmetry; apply pruned_expire_oldest).
  lia.
Qed.

Lemma CacheNow_at_capacity_evicts_oldest_witness :
  exists victim itm,
    (<[ "b"%string := cacheItem.mk hi 2 7 10 ]> {[ "a"%string := cacheItem.mk hi 2 0 10 ]}
       : gmap string cacheItem.t) !! victim = Some itm /\
    (forall k i,
        (<[ "b"%string := cacheItem.mk hi 2 7 10 ]> {[ "a"%string := cacheItem.mk hi 2 0 10 ]}
           : gmap string cacheItem.t) !! k = Some i ->
        cacheItem.Lastaccess itm <= cacheItem.Lastaccess i) /\
    expire_oldest true (disk 9) map_to_list (full_cache 0)
    = set_items (full_cache 0)
        (Some (delete victim (<[ "b"%string := cacheItem.mk hi 2 7 10 ]>
                                {[ "a"%string := cacheItem.mk hi 2 0 10 ]}))) /\
    Size (expire_oldest true (disk 9) map_to_list (full_cache 0)) = Size (full_cache 0) - 1 /\
    exists err c', CacheNow (disk 9) map_to_list (full_cache 0) "big" = Ret (err, c') /\
                   Size c' <= MaxItems c'.
Proof.
  exact (CacheNow_at_capacity_evicts_oldest (disk 9) map_to_list (full_cache 0) "big" _
           enumerates_map_to_list eq_refl eq_refl eq_refl eq_refl).
Defined.

(** ** The maintenance cycle *)

Lemma InCache_pruned c c' name : pruned c c' -> InCache c' name = true -> InCache c name = true.
Proof.
  intros Hp H. apply InCache_true in H as [itm Hitm]. apply InCache_true.
  exists itm. eapply pruned_lookup; eassumption.
Qed.

(** After the sweep no key still cached is stale. *)
Lemma sweep_leaves_no_stale_key w names c :
  (forall k, InCache c k = true -> k ∈ names \/ item_expired w c k = false) ->
  forall k, InCache (sweep w c names) k = true -> item_expired w (sweep w c names) k = false.
Proof.
  revert c. induction names as [|k0 names IH]; intros c Hc k Hk; simpl in *.
  - destruct (Hc k Hk) as [H|H]; [inversion H | exact H].
  - apply IH; [|exact Hk]. clear k Hk. intros k Hk.
    set (c1 := if item_expired w c k0 then delete_item c k0 else c) in *.
    assert (pruned c c1) as Hp
      by (unfold c1; destruct (item_expired w c k0);
          [apply pruned_delete_item | apply pruned_refl]).
    assert (item_expired w c1 k = item_expired w c k) as Hsame
      by (apply item_expired_pruned; [exact Hp | apply InCache_true, Hk]).
    destruct (Hc k (InCache_pruned c c1 k Hp Hk)) as [Hin|Hfresh].
    + apply elem_of_cons in Hin as [->|Hin]; [|left; exact Hin].
      right. rewrite Hsame. unfold c1 in Hk.
      destruct (item_expired w c k0) eqn:He; [|reflexivity].
      apply InCache_true in Hk as [itm Hitm].
      rewrite lookup_item_delete_item in Hitm. case_decide; congruence.
    + right. rewrite Hsame. exact Hfresh.
Qed.

(** With [MaxItems] not negative and no empty key, the eviction loop ends
    within as many turns as there are entries, with at most [MaxItems] of
    them left. *)
Lemma evict_excess_terminates w ord fuel c (m : gmap string cacheItem.t) :
  enumerates ord -> items c = Some m -> m !! EmptyString = None ->
  0 <= MaxItems c -> (size m <= fuel)%nat ->
  exists c', evict_excess fuel w ord c = Some c' /\ Size c' <= MaxItems c'.
Proof.
  intros Hord. revert c m. induction fuel as [|fuel IH]; intros c m Hm Hempty Hmax Hfuel; simpl.
  - assert (Size c = 0) as Hsz by (unfold Size; rewrite Hm; lia).
    replace (MaxItems c <? Size c) with false by (symmetry; apply Z.ltb_ge; lia).
    exists c. split; [reflexivity|lia].
  - destruct (Z.ltb_spec (MaxItems c) (Size c)) as [Hlt|Hge]; [|exists c; split; [reflexivity|lia]].
    assert (m <> ∅) as Hne.
    { intros ->. unfold Size in Hlt. rewrite Hm, map_size_empty in Hlt. lia. }
    destruct (expire_oldest_forced w ord c m Hord Hm Hempty Hne) as (victim & itm & Hv & _ & He).
    apply (IH _ (delete victim m)).
    + rewrite He. reflexivity.
    + rewrite lookup_delete. case_decide; [reflexivity | exact Hempty].
    + rewrite He. exact Hmax.
    + rewrite map_size_delete, Hv.
      assert (size m <> 0%nat) by (apply map_size_non_empty_iff; exact Hne).
      simpl. lia.
Qed.

(** C7. One turn of the maintenance loop on a started cache, run against
    one reading of the filesystem and the clock, with [MaxItems] not negative
    and no key the empty path: the turn completes, and right after it no key
    left in the cache is one [item_expired] reports stale, and the entry
    count is at most [MaxItems]. *)
Theorem vaccuum_cycle_leaves_fresh_and_bounded w ord fuel c (m : gmap string cacheItem.t) :
  enumerates ord -> items c = Some m -> m !! EmptyString = None ->
  0 <= MaxItems c -> (size m <= fuel)%nat ->
  exists c', vaccuum fuel w ord c = VaccuumSwept c' /\
             (forall name, InCache c' name = true -> item_expired w c' name = false) /\
             Size c' <= MaxItems c'.
Proof.
  intros Hord Hm Hempty Hmax Hfuel. unfold vaccuum. rewrite Hm.
  set (c1 := sweep w c (range ord c).*1).
  pose proof (pruned_sweep w (range ord c).*1 c) as Hp. fold c1 in Hp.
  assert (forall k, InCache c1 k = true -> item_expired w c1 k = false) as Hfresh.
  { apply sweep_leaves_no_stale_key. intros k Hk. left.
    apply InCache_true in Hk as [itm Hitm]. unfold lookup_item in Hitm. rewrite Hm in Hitm.
    unfold range. rewrite Hm. apply list_elem_of_fmap. exists (k, itm).
    split; [reflexivity|]. apply (elem_of_enumeration ord m k itm Hord), Hitm. }
  destruct (items c1) as [m1|] eqn:Hm1.
  2:{ destruct Hp as (_&_&_&_&_&[_ Hnil]&_). specialize (Hnil Hm1). congruence. }
  assert (m1 !! EmptyString = None) as Hempty1.
  { destruct Hp as (_&_&_&_&_&_&Hl). destruct (Hl EmptyString) as [Hn|Hn];
      unfold lookup_item in Hn; rewrite Hm1 in Hn; [exact Hn|].
    rewrite Hn, Hm. exact Hempty. }
  assert (size m1 <= size m)%nat as Hsz.
  { apply map_subseteq_size, map_subseteq_spec. intros k i Hk.
    pose proof (pruned_lookup c c1 k i Hp) as Hl. unfold lookup_item in Hl.
    rewrite Hm, Hm1 in Hl. exact (Hl Hk). }
  destruct (evict_excess_terminates w ord fuel c1 m1 Hord Hm1 Hempty1) as (c' & Hrun & Hbound).
  { replace (MaxItems c1) with (MaxItems c) by (symmetry; apply Hp). exact Hmax. }
  { lia. }
  rewrite Hrun. exists c'. split; [reflexivity|]. split; [|exact Hbound].
  pose proof (pruned_evict_excess fuel w ord c1 c' Hrun) as Hp'.
  intros name Hin. rewrite (item_expired_pruned w c1 c' name Hp' (proj1 (InCache_true _ _) Hin)).
  apply Hfresh, (InCache_pruned c1 c' name Hp' Hin).
Qed.

Lemma vaccuum_cycle_leaves_fresh_and_bounded_witness :
  exists c', vaccuum 2 (disk 300000000000) map_to_list (full_cache 60) = VaccuumSwept c' /\
             (forall name, InCache c' name = true ->
                           item_expired (disk 300000000000) c' name = false) /\
             Size c' <= MaxItems c'.
Proof.
  exact (vaccuum_cycle_leaves_fresh_and_bounded (disk 300000000000) map_to_list 2
           (full_cache 60) _ enumerates_map_to_list eq_refl eq_refl
           ltac:(vm_compute; discriminate) ltac:(vm_compute; lia)).
Defined.

(** With a negative [MaxItems] the eviction loop never ends. *)
Lemma evict_excess_spins_below_zero fuel w ord c :
  MaxItems c < 0 -> evict_excess fuel w ord c = None.
Proof.
  revert c. induction fuel as [|fuel IH]; intros c Hneg; simpl.
  - replace (MaxItems c <? Size c) with true; [reflexivity|].
    symmetry. apply Z.ltb_lt. unfold Size. destruct (items c); lia.
  - replace (MaxItems c <? Size c) with true.
    + apply IH. replace (MaxItems (expire_oldest true w ord c)) with (MaxItems c);
        [exact Hneg | symmetry; apply pruned_expire_oldest].
    + symmetry. apply Z.ltb_lt. unfold Size. destruct (items c); lia.
Qed.

(** ** Reachable caches *)

(** Every entry of a reachable cache was built by [add_item]. *)
Lemma reachable_entries good c name itm :
  reachable good c -> lookup_item c name = Some itm ->
  exists w c0, good w /\ populated w c0 name itm.
Proof.
  intros Hreach. revert name itm.
  induction Hreach as [| |w ord o c c' Hreach IH Hgood Hord Hstep]; intros name itm Hitm;
    [discriminate..|].
  destruct (step_lookup w ord o c c' name itm Hstep Hitm) as [Hold|[Hpop _]].
  - apply (IH name itm Hold).
  - exists w, c. split; assumption.
Qed.

(** No reachable cache has the empty path for a key. *)
Lemma reachable_no_empty_key c :
  reachable stat_rejects_empty_path c -> lookup_item c EmptyString = None.
Proof.
  intros Hreach. destruct (lookup_item c EmptyString) as [itm|] eqn:Hitm; [|reflexivity].
  destruct (reachable_entries _ c _ itm Hreach Hitm)
    as (w & c0 & [e He] & (fi & content & Hstat & _)).
  congruence.
Qed.

(** No reachable cache holds a directory or an entry larger than [MaxSize]
    was when the entry was inserted. *)
Lemma reachable_entries_were_small_files c name itm :
  reachable (fun _ => True) c -> lookup_item c name = Some itm ->
  exists w c0 fi, stat w name = inr fi /\ FileInfo.IsDir fi = false /\
                  cacheItem.Size itm = FileInfo.Size fi /\ cacheItem.Size itm <= MaxSize c0.
Proof.
  intros Hreach Hitm.
  destruct (reachable_entries _ c name itm Hreach Hitm)
    as (w & c0 & _ & (fi & content & Hstat & Hdir & Hsize & _ & ->)).
  exists w, c0, fi. auto.
Qed.

(** ** [Size] and [Content] *)

(** As long as every file reads as many bytes as [stat] reported, [Size] is
    the length of [Content] in every reachable cache. *)
Lemma reachable_Size_is_length c name itm :
  reachable stat_size_is_read_length c -> lookup_item c name = Some itm ->
  cacheItem.Size itm = Z.of_nat (length (cacheItem.Content itm)).
Proof.
  intros Hreach Hitm.
  destruct (reachable_entries _ c name itm Hreach Hitm)
    as (w & c0 & Hgood & (fi & content & Hstat & _ & _ & Hread & ->)).
  simpl. apply (Hgood name fi content Hstat Hread).
Qed.

(** C8, on the code. [add_item] takes [Size] from [os.Stat] and [Content]
    from the later [ioutil.ReadFile] and does not compare them: on a started
    default cache, [CacheNow] of a file that [stat] reports as 0 bytes and
    that reads as 2 bytes stores an entry with [Size = 0] and a [Content] of
    length 2, and [WriteItem], which takes [Size] for the length, then
    reports [WriteIncomplete] for a writer that took every byte. *)
Theorem Size_is_the_stat_size_not_the_Content_length :
  exists c1 gs c' itm,
    Start NewDefaultCache = Ret (c1, gs) /\
    CacheNow procfs map_to_list c1 "/proc/version" = Ret (None, c') /\
    lookup_item c' "/proc/version" = Some itm /\
    cacheItem.Size itm = 0 /\
    length (cacheItem.Content itm) = 2%nat /\
    cacheItem.Size itm <> Z.of_nat (length (cacheItem.Content itm)) /\
    WriteItem write_all c' "/proc/version" = Some WriteIncomplete.
Proof.
  eexists _, _, _, _.
  split; [reflexivity|]. split; [vm_compute; reflexivity|].
  split; [vm_compute; reflexivity|]. split; [reflexivity|]. split; [reflexivity|].
  split; [vm_compute; discriminate | vm_compute; reflexivity].
Qed.

(** * Further properties of the code *)

(** ** Removal *)

Lemma set_items_id c : set_items c (items c) = c.
Proof. destruct c. reflexivity. Qed.

Lemma set_in_pipe_id c p : in_pipe c = p -> set_in_pipe c p = c.
Proof. destruct c. simpl. intros ->. reflexivity. Qed.

Lemma delete_item_absent c name : lookup_item c name = None -> delete_item c name = c.
Proof.
  unfold lookup_item, delete_item. destruct (items c) as [m|] eqn:Hm; [|reflexivity].
  intros Hl. rewrite (delete_id m name Hl), <- Hm. apply set_items_id.
Qed.

Lemma Size_delete_item c name itm :
  lookup_item c name = Some itm -> Size (delete_item c name) = Size c - 1.
Proof.
  unfold lookup_item, delete_item, Size. destruct (items c) as [m|]; [|discriminate].
  intros Hl. simpl. rewrite map_size_delete, Hl.
  assert (size m <> 0%nat) by (apply map_size_ne_0_lookup; eauto).
  simpl. lia.
Qed.

(** X1. [Remove] of a cached key returns true with a nil error, after which
    the key is not cached, every other key has the entry it had, and the
    count is one less; [Remove] of a key that is not cached (also on a cache
    that was never started) returns false with a nil error and changes
    nothing. *)
Theorem Remove_deletes_exactly_the_key c name :
  (forall itm, lookup_item c name = Some itm ->
     exists c', Remove c name = (true, None, c') /\
                InCache c' name = false /\
                (forall k, k <> name -> lookup_item c' k = lookup_item c k) /\
                Size c' = Size c - 1) /\
  (lookup_item c name = None -> Remove c name = (false, None, c)).
Proof.
  split.
  - intros itm Hitm. exists (delete_item c name).
    assert (lookup_item (delete_item c name) name = None) as Hgone
      by (rewrite lookup_item_delete_item; case_decide; [reflexivity|congruence]).
    unfold Remove. rewrite Hitm. unfold InCache. rewrite Hgone.
    split; [reflexivity|]. split; [reflexivity|]. split.
    + intros k Hk. rewrite lookup_item_delete_item. case_decide; [congruence|reflexivity].
    + apply (Size_delete_item c name itm Hitm).
  - intros Hnone. unfold Remove. rewrite Hnone. reflexivity.
Qed.

(** ** Population: success, failure, nil map, repetition *)

(** X2. On a started cache, [add_item] of a regular file no larger than
    [MaxSize] that reads without error, for a key that is not cached or
    whose entry is stale, returns nil; afterwards the key is cached with the
    bytes read, the size and modification time [stat] gave and the current
    time as [Lastaccess], [GetItem] returns those bytes, and every other key
    has the entry it had. *)
Theorem add_item_caches_the_file w c name (m : gmap string cacheItem.t) fi content :
  items c = Some m ->
  lookup_item c name = None \/ item_expired w c name = true ->
  stat w name = inr fi -> FileInfo.IsDir fi = false ->
  FileInfo.Size fi <= MaxSize c -> readFile w name = (content, None) ->
  exists c', add_item w c name = Ret (None, c') /\
             lookup_item c' name
             = Some (cacheItem.mk content (FileInfo.Size fi) (now w) (FileInfo.ModTime fi)) /\
             GetItem c' name = (content, true) /\
             (forall k, k <> name -> lookup_item c' k = lookup_item c k).
Proof.
  intros Hm Hstale Hstat Hdir Hsize Hread.
  set (itm := cacheItem.mk content (FileInfo.Size fi) (now w) (FileInfo.ModTime fi)).
  exists (set_items c (Some (<[name := itm]> m))).
  assert (lookup_item (set_items c (Some (<[name := itm]> m))) name = Some itm) as Hnew
    by (rewrite lookup_item_set_items; apply lookup_insert_eq).
  assert (forall k, k <> name ->
            lookup_item (set_items c (Some (<[name := itm]> m))) k = lookup_item c k) as Hothers.
  { intros k Hk. rewrite lookup_item_set_items. unfold lookup_item. rewrite Hm.
    apply lookup_insert_ne. congruence. }
  split; [|split; [exact Hnew|split; [unfold GetItem; rewrite Hnew; reflexivity|exact Hothers]]].
  unfold add_item.
  assert (InCache c name && negb (item_expired w c name) = false) as ->.
  { destruct Hstale as [Hnone|Hexp].
    - unfold InCache. rewrite Hnone. reflexivity.
    - rewrite Hexp. apply andb_false_r. }
  set (c1 := if InCache c name then delete_item c name else c).
  assert (MaxSize c1 = MaxSize c) as Hmax
    by (unfold c1; destruct (InCache c name); [apply pruned_delete_item | reflexivity]).
  assert (exists m1 : gmap string cacheItem.t,
            items c1 = Some m1 /\ <[name := itm]> m1 = <[name := itm]> m /\
            set_items c1 (Some (<[name := itm]> m1)) = set_items c (Some (<[name := itm]> m)))
    as (m1 & Hm1 & _ & Hset).
  { unfold c1. destruct (InCache c name).
    - exists (delete name m). unfold delete_item. rewrite Hm. simpl.
      split; [reflexivity|]. rewrite insert_delete_eq. split; reflexivity.
    - exists m. auto. }
  rewrite Hstat, Hdir, Hmax.
  replace (MaxSize c <? FileInfo.Size fi) with false by (symmetry; apply Z.ltb_ge; exact Hsize).
  rewrite Hread. unfold assign_item. rewrite Hm1. simpl. fold itm. rewrite Hset.
  unfold InCache. rewrite Hnew. reflexivity.
Qed.

Lemma add_item_caches_the_file_witness :
  exists c', add_item (disk 3) cache_with_big "a" = Ret (None, c') /\
             lookup_item c' "a" = Some (cacheItem.mk hi 2 3 10) /\
             GetItem c' "a" = (hi, true) /\
             (forall k, k <> "a"%string -> lookup_item c' k = lookup_item cache_with_big k).
Proof.
  exact (add_item_caches_the_file (disk 3) cache_with_big "a" _ (FileInfo.mk 2 false 10) hi
           eq_refl (or_introl eq_refl) eq_refl eq_refl ltac:(vm_compute; discriminate) eq_refl).
Defined.

(** X3. When [add_item] fails for a key that is not cached or whose entry
    is stale - [os.Stat] fails, the path is a directory, or the read fails -
    it returns that error ([ItemIsDirectory] for a directory, the error of
    the filesystem otherwise), the key is not cached afterwards, and every
    other key has the entry it had.  A cache that was never started does
    not panic here. *)
Theorem add_item_failure_leaves_the_key_uncached w c name :
  lookup_item c name = None \/ item_expired w c name = true ->
  (forall e, stat w name = inl e ->
     add_item w c name = Ret (Some (OSError e), delete_item c name)) /\
  (forall fi, stat w name = inr fi -> FileInfo.IsDir fi = true ->
     add_item w c name = Ret (Some ItemIsDirectory, delete_item c name)) /\
  (forall fi content e,
     stat w name = inr fi -> FileInfo.IsDir fi = false ->
     FileInfo.Size fi <= MaxSize c -> readFile w name = (content, Some e) ->
     add_item w c name = Ret (Some (OSError e), delete_item c name)) /\
  InCache (delete_item c name) name = false /\
  (forall k, k <> name -> lookup_item (delete_item c name) k = lookup_item c k).
Proof.
  intros Hstale.
  assert (InCache c name && negb (item_expired w c name) = false) as Hgo.
  { destruct Hstale as [Hnone|Hexp].
    - unfold InCache. rewrite Hnone. reflexivity.
    - rewrite Hexp. apply andb_false_r. }
  assert ((if InCache c name then delete_item c name else c) = delete_item c name) as Hc1.
  { unfold InCache. destruct (lookup_item c name) eqn:Hl; [reflexivity|].
    symmetry. apply delete_item_absent, Hl. }
  assert (MaxSize (delete_item c name) = MaxSize c) as Hmax by apply pruned_delete_item.
  split; [|split; [|split; [|split]]].
  - intros e Hstat. unfold add_item. rewrite Hgo, Hc1, Hstat. reflexivity.
  - intros fi Hstat Hdir. unfold add_item. rewrite Hgo, Hc1, Hstat, Hdir. reflexivity.
  - intros fi content e Hstat Hdir Hsize Hread.
    unfold add_item. rewrite Hgo, Hc1, Hstat, Hdir, Hmax.
    replace (MaxSize c <? FileInfo.Size fi) with false by (symmetry; apply Z.ltb_ge; exact Hsize).
    rewrite Hread. reflexivity.
  - unfold InCache. rewrite lookup_item_delete_item. case_decide; [reflexivity|congruence].
  - intros k Hk. rewrite lookup_item_delete_item. case_decide; [congruence|reflexivity].
Qed.

Lemma add_item_failure_leaves_the_key_uncached_witness :
  add_item (disk 0) NewCache "gone"
  = Ret (Some (OSError "no such file or directory"), delete_item NewCache "gone") /\
  InCache (delete_item NewCache "gone") "gone" = false.
Proof.
  pose proof (add_item_failure_leaves_the_key_uncached (disk 0) NewCache "gone"
                (or_introl eq_refl)) as H.
  split; [exact (proj1 H _ eq_refl) | exact (proj1 (proj2 (proj2 (proj2 H))))].
Defined.

Lemma expire_oldest_inert force w ord c : items c = None -> expire_oldest force w ord c = c.
Proof. intros Hc. unfold expire_oldest, range. rewrite Hc. reflexivity. Qed.

(** X4. On a cache that was never started (or was stopped), [CacheNow] of
    a file it would cache - regular, no larger than [MaxSize], read without
    error - panics: the entry is assigned into the nil map. *)
Theorem CacheNow_before_Start_panics w ord c name fi content :
  items c = None ->
  stat w name = inr fi -> FileInfo.IsDir fi = false ->
  FileInfo.Size fi <= MaxSize c -> readFile w name = (content, None) ->
  CacheNow w ord c name = Panic "assignment to entry in nil map".
Proof.
  intros Hc Hstat Hdir Hsize Hread. unfold CacheNow.
  assert ((if Size c =? MaxItems c then expire_oldest true w ord c else c) = c) as ->
    by (destruct (Size c =? MaxItems c); [apply expire_oldest_inert, Hc | reflexivity]).
  unfold add_item, InCache, lookup_item. rewrite Hc. simpl.
  rewrite Hstat, Hdir.
  replace (MaxSize c <? FileInfo.Size fi) with false by (symmetry; apply Z.ltb_ge; exact Hsize).
  rewrite Hread. unfold assign_item. rewrite Hc. reflexivity.
Qed.

Lemma CacheNow_before_Start_panics_witness :
  CacheNow (disk 0) map_to_list NewDefaultCache "a" = Panic "assignment to entry in nil map".
Proof.
  exact (CacheNow_before_Start_panics (disk 0) map_to_list NewDefaultCache "a"
           (FileInfo.mk 2 false 10) hi eq_refl eq_refl eq_refl
           ltac:(vm_compute; discriminate) eq_refl).
Defined.

Lemma Time_Sub_same t : Time_Sub t t = 0.
Proof. unfold Time_Sub, min_int64, max_int64. rewrite Z.sub_diag. lia. Qed.

(** An entry populated this instant is not aged out, whatever positive
    [ExpireItem] is. *)
Lemma expired_at_age_zero w c name itm :
  lookup_item c name = Some itm -> cacheItem.Lastaccess itm = now w ->
  0 < ExpireItem c -> expired w c name = false.
Proof.
  intros Hitm Hnow Hpos. unfold expired. rewrite Hitm, Hnow, Time_Sub_same. cbv zeta.
  destruct (seconds_between 0 0 0) as [sec [-> Hsec]].
  - unfold min_int64, max_int64. lia.
  - unfold Second. lia.
  - apply Z.leb_gt. lia.
Qed.

(** X5. Populating twice against the same filesystem and clock is populating
    once: when [add_item] has returned nil and [ExpireItem] is not negative,
    a second [add_item] of the same key returns nil and leaves the cache as
    the first left it. *)
Theorem add_item_twice_is_add_item_once w c name c' :
  add_item w c name = Ret (None, c') -> 0 <= ExpireItem c ->
  add_item w c' name = Ret (None, c').
Proof.
  intros Hrun Hexp.
  assert (InCache c' name && negb (item_expired w c' name) = true) as Hfresh.
  { unfold add_item in Hrun.
    destruct (InCache c name && negb (item_expired w c name)) eqn:Hf.
    { injection Hrun as <-. exact Hf. }
    set (c1 := if InCache c name then delete_item c name else c) in Hrun.
    assert (pruned c c1) as Hp
      by (unfold c1; destruct (InCache c name); [apply pruned_delete_item | apply pruned_refl]).
    destruct (stat w name) as [e|fi] eqn:Hstat; [discriminate|].
    destruct (FileInfo.IsDir fi); [discriminate|].
    destruct (MaxSize c1 <? FileInfo.Size fi); [discriminate|].
    destruct (readFile w name) as [content [e|]]; [discriminate|].
    unfold assign_item in Hrun. destruct (items c1) as [m1|] eqn:Hm1; [|discriminate].
    simpl in Hrun.
    set (itm := cacheItem.mk content (FileInfo.Size fi) (now w) (FileInfo.ModTime fi)) in Hrun.
    set (c2 := set_items c1 (Some (<[name := itm]> m1))) in Hrun.
    assert (lookup_item c2 name = Some itm) as Hl
      by (unfold c2; rewrite lookup_item_set_items; apply lookup_insert_eq).
    assert (InCache c2 name = true) as Hin by (unfold InCache; rewrite Hl; reflexivity).
    rewrite Hin in Hrun. simpl in Hrun. injection Hrun as <-.
    rewrite Hin. simpl. apply negb_true_iff.
    unfold item_expired.
    assert (changed w c2 name = false) as ->.
    { unfold changed. rewrite Hl, Hstat. unfold itm, Time_Equal. simpl.
      rewrite Z.eqb_refl. reflexivity. }
    assert (ExpireItem c2 = ExpireItem c) as He by (unfold c2; simpl; apply Hp).
    rewrite He. destruct (Z.eqb_spec (ExpireItem c) 0) as [H0|Hne]; [reflexivity|].
    simpl. rewrite (expired_at_age_zero w c2 name itm Hl eq_refl); [reflexivity|].
    rewrite He. lia. }
  unfold add_item. rewrite Hfresh. reflexivity.
Qed.

Lemma add_item_twice_is_add_item_once_witness :
  add_item (disk 3)
    (set_items cache_with_big
       (Some (<[ "a"%string := cacheItem.mk hi 2 3 10 ]>
                {[ "big"%string := cacheItem.mk hi 2 0 5 ]})))
    "a"
  = Ret (None,
         set_items cache_with_big
           (Some (<[ "a"%string := cacheItem.mk hi 2 3 10 ]>
                    {[ "big"%string := cacheItem.mk hi 2 0 5 ]}))).
Proof.
  apply (add_item_twice_is_add_item_once (disk 3) cache_with_big "a").
  - vm_compute. reflexivity.
  - vm_compute. discriminate.
Defined.

(** X6. With a negative [ExpireItem] every cached entry whose last access
    is not in the future is aged out, and so stale, whatever the file on
    disk looks like. *)
Theorem negative_ExpireItem_makes_entries_stale w c name itm :
  lookup_item c name = Some itm -> ExpireItem c < 0 ->
  cacheItem.Lastaccess itm <= now w ->
  expired w c name = true /\ item_expired w c name = true.
Proof.
  intros Hitm Hneg Hpast.
  assert (expired w c name = true) as He.
  { unfold expired. rewrite Hitm. cbv zeta.
    pose proof (Time_Sub_range (now w) (cacheItem.Lastaccess itm)) as Hr.
    destruct (seconds_between (Time_Sub (now w) (cacheItem.Lastaccess itm))
                0 9223372037 Hr) as [sec [-> Hsec]].
    - unfold Time_Sub, min_int64, max_int64, Second in *. lia.
    - apply Z.leb_le. lia. }
  split; [exact He|]. unfold item_expired. destruct (changed w c name); [reflexivity|].
  rewrite He. replace (ExpireItem c =? 0) with false by (symmetry; apply Z.eqb_neq; lia).
  reflexivity.
Qed.

Lemma negative_ExpireItem_makes_entries_stale_witness :
  expired (disk 5) (cache_with_a (-1)) "a" = true /\
  item_expired (disk 5) (cache_with_a (-1)) "a" = true.
Proof.
  apply (negative_ExpireItem_makes_entries_stale (disk 5) (cache_with_a (-1)) "a"
           (cacheItem.mk hi 2 0 10) eq_refl); vm_compute; [reflexivity|discriminate].
Defined.

(** ** The pipe: [Cache], [item_listener], and [Stop] again *)

Lemma delete_item_set_in_pipe c p name :
  delete_item (set_in_pipe c p) name = set_in_pipe (delete_item c name) p.
Proof. unfold delete_item. simpl. destruct (items c); reflexivity. Qed.

(** [add_item] neither reads nor writes the pipe. *)
Lemma add_item_set_in_pipe w c p name :
  add_item w (set_in_pipe c p) name
  = (r <- add_item w c name ;; Ret (r.1, set_in_pipe r.2 p)).
Proof.
  unfold add_item.
  change (InCache (set_in_pipe c p) name) with (InCache c name).
  change (item_expired w (set_in_pipe c p) name) with (item_expired w c name).
  destruct (InCache c name && negb (item_expired w c name)); [reflexivity|].
  assert ((if InCache c name then delete_item (set_in_pipe c p) name else set_in_pipe c p)
          = set_in_pipe (if InCache c name then delete_item c name else c) p) as ->
    by (destruct (InCache c name); [apply delete_item_set_in_pipe | reflexivity]).
  set (c1 := if InCache c name then delete_item c name else c).
  destruct (stat w name) as [e|fi]; [reflexivity|].
  destruct (FileInfo.IsDir fi); [reflexivity|].
  change (MaxSize (set_in_pipe c1 p)) with (MaxSize c1).
  destruct (MaxSize c1 <? FileInfo.Size fi); [reflexivity|].
  destruct (readFile w name) as [content [e|]]; [reflexivity|].
  unfold assign_item. simpl. destruct (items c1) as [m1|]; [|reflexivity].
  simpl.
  set (c2 := set_items c1 _).
  change (InCache (set_items (set_in_pipe c1 p) (Some (<[name := cacheItem.mk content
            (FileInfo.Size fi) (now w) (FileInfo.ModTime fi)]> m1))) name)
    with (InCache c2 name).
  destruct (negb (InCache c2 name)); reflexivity.
Qed.

(** X7. One turn of the listener takes the oldest queued name off the pipe
    and populates it exactly as [add_item] does, leaving the names queued
    behind it in order (also on a closed pipe, which still delivers what it
    buffered); on a closed and drained pipe the listener returns. *)
Theorem item_listener_takes_the_oldest_name w c cl :
  (forall k rest, in_pipe c = Some (mkChan cl (k :: rest)) ->
     item_listener w c
     = (r <- add_item w c k ;; Ret (Some (set_in_pipe r.2 (Some (mkChan cl rest)))))) /\
  (in_pipe c = Some (mkChan true []) -> item_listener w c = Ret None).
Proof.
  split.
  - intros k rest Hp. unfold item_listener. rewrite Hp. simpl.
    rewrite add_item_set_in_pipe. destruct (add_item w c k); reflexivity.
  - intros Hp. unfold item_listener. rewrite Hp. reflexivity.
Qed.

Lemma in_pipe_Cache_eviction w ord c :
  in_pipe (if Size c =? MaxItems c then expire_oldest true w ord c else c) = in_pipe c.
Proof. apply pruned_Cache_eviction. Qed.

(** X8. Asynchronous population does what [CacheNow] does: on a cache whose
    pipe is open and empty, [Cache(name)] returns with the name queued, and
    the listener's next turn (against the same filesystem and clock) leaves
    the cache exactly as [CacheNow(name)] would have, with the pipe empty
    again; a panic of [CacheNow] is a panic of the listener. *)
Theorem Cache_then_listener_is_CacheNow w ord c name :
  in_pipe c = Some (mkChan false []) ->
  exists c1, Cache w ord c name = Ret c1 /\
             in_pipe c1 = Some (mkChan false [name]) /\
             item_listener w c1 = (r <- CacheNow w ord c name ;; Ret (Some r.2)).
Proof.
  intros Hp. unfold Cache, CacheNow, send.
  pose proof (in_pipe_Cache_eviction w ord c) as Hp0.
  set (c0 := if Size c =? MaxItems c then expire_oldest true w ord c else c) in *.
  rewrite Hp in Hp0. rewrite Hp0. simpl.
  eexists. split; [reflexivity|]. split; [reflexivity|].
  unfold item_listener. simpl.
  rewrite !add_item_set_in_pipe.
  destruct (add_item w c0 name) as [[err c2]| |] eqn:Ha; simpl; [|reflexivity..].
  f_equal. f_equal.
  change (set_in_pipe c2 (Some (mkChan false [])) = c2). apply set_in_pipe_id.
  clear -Ha Hp0. revert Ha. unfold add_item.
  destruct (InCache c0 name && negb (item_expired w c0 name)); [intros [= _ <-]; exact Hp0|].
  set (c1 := if InCache c0 name then delete_item c0 name else c0).
  assert (in_pipe c1 = Some (mkChan false [])) as Hp1.
  { unfold c1. destruct (InCache c0 name); [|exact Hp0].
    rewrite <- Hp0. apply pruned_delete_item. }
  destruct (stat w name) as [e|fi]; [intros [= _ <-]; exact Hp1|].
  destruct (FileInfo.IsDir fi); [intros [= _ <-]; exact Hp1|].
  destruct (MaxSize c1 <? FileInfo.Size fi); [intros [= _ <-]; exact Hp1|].
  destruct (readFile w name) as [content [e|]]; [intros [= _ <-]; exact Hp1|].
  unfold assign_item. destruct (items c1); simpl; [|discriminate].
  destruct (negb (InCache _ name)); intros [= _ <-]; exact Hp1.
Qed.

Lemma Cache_then_listener_is_CacheNow_witness :
  exists c1, Cache (disk 3) map_to_list cache_with_big "a" = Ret c1 /\
             in_pipe c1 = Some (mkChan false ["a"%string]) /\
             item_listener (disk 3) c1
             = (r <- CacheNow (disk 3) map_to_list cache_with_big "a" ;; Ret (Some r.2)).
Proof.
  exact (Cache_then_listener_is_CacheNow (disk 3) map_to_list cache_with_big "a" eq_refl).
Defined.

(** X9. After [Start] and [Stop] the pipe is closed but not nil: a later
    [Cache] panics on sending to it, and every [ReadFile] on the stopped
    cache starts such a [Cache]. *)
Theorem Cache_after_Stop_panics w ord c c1 gs c2 name :
  Start c = Ret (c1, gs) -> Stop ord c1 = Ret c2 ->
  Cache w ord c2 name = Panic "send on closed channel" /\
  (ReadFile w c2 name).2 = [GoCache name].
Proof.
  intros Hstart Hstop.
  destruct (Start_fresh c c1 gs Hstart) as [_ Hp1].
  destruct (Stop_from _ ord c1 (close_in_pipe_open c1 [] Hp1)) as (c2' & Hstop' & Hnil & Hp2).
  rewrite Hstop in Hstop'. injection Hstop' as <-. simpl in Hp2. split.
  - unfold Cache, send. rewrite in_pipe_Cache_eviction, Hp2. reflexivity.
  - unfold ReadFile, InCache, lookup_item. rewrite Hnil.
    destruct (readFile w name) as [content [e|]]; reflexivity.
Qed.

Lemma Cache_after_Stop_panics_witness :
  Cache (disk 0) map_to_list (mkFileCache None (Some (mkChan true [])) 0 0 0 0) "a"
  = Panic "send on closed channel".
Proof.
  exact (proj1 (Cache_after_Stop_panics (disk 0) map_to_list NewCache
                  (mkFileCache (Some ∅) (Some (mkChan false [])) 0 0 0 0)
                  [GoItemListener; GoVaccuum]
                  (mkFileCache None (Some (mkChan true [])) 0 0 0 0) "a" eq_refl eq_refl)).
Defined.

(** X10. [Stop] on a started cache whose pipe is open returns; it keeps the
    configuration, leaves the cache inactive, and ends both background
    goroutines: the sweeper returns at its next turn, and the listener
    returns once the pipe is drained.  A name still queued is still
    delivered, and if its file is one [add_item] would cache the listener
    panics on the nil map. *)
Theorem Stop_ends_the_background_goroutines w ord fuel c buf :
  in_pipe c = Some (mkChan false buf) ->
  exists c2, Stop ord c = Ret c2 /\
             Active c2 = false /\
             (MaxItems c2, MaxSize c2, ExpireItem c2, Every c2)
             = (MaxItems c, MaxSize c, ExpireItem c, Every c) /\
             vaccuum fuel w ord c2 = VaccuumReturns /\
             (buf = [] -> item_listener w c2 = Ret None) /\
             (forall k rest fi content,
                buf = k :: rest ->
                stat w k = inr fi -> FileInfo.IsDir fi = false ->
                FileInfo.Size fi <= MaxSize c -> readFile w k = (content, None) ->
                item_listener w c2 = Panic "assignment to entry in nil map").
Proof.
  intros Hp.
  destruct (Stop_from _ ord c (close_in_pipe_open c buf Hp)) as (c2 & Hstop & Hnil & Hp2).
  simpl in Hp2. exists c2. split; [exact Hstop|].
  assert ((MaxItems c2, MaxSize c2, ExpireItem c2, Every c2)
          = (MaxItems c, MaxSize c, ExpireItem c, Every c)) as Hcfg.
  { unfold Stop in Hstop. rewrite (close_in_pipe_open c buf Hp) in Hstop. simpl in Hstop.
    injection Hstop as <-. simpl.
    destruct (pruned_Stop_loop ord (set_in_pipe c (Some (mkChan true buf))))
      as (_ & H1 & H2 & H3 & H4 & _).
    rewrite H1, H2, H3, H4. reflexivity. }
  split; [unfold Active; rewrite Hp2, Hnil; reflexivity|].
  split; [exact Hcfg|].
  split; [unfold vaccuum; rewrite Hnil; reflexivity|].
  split.
  - intros ->. unfold item_listener. rewrite Hp2. reflexivity.
  - intros k rest fi content -> Hstat Hdir Hsize Hread.
    unfold item_listener. rewrite Hp2. simpl.
    unfold add_item, InCache, lookup_item. simpl. rewrite Hnil. simpl.
    rewrite Hstat, Hdir.
    assert (MaxSize c2 = MaxSize c) as -> by congruence.
    replace (MaxSize c <? FileInfo.Size fi) with false by (symmetry; apply Z.ltb_ge; exact Hsize).
    rewrite Hread. unfold assign_item. simpl. rewrite Hnil. reflexivity.
Qed.

Lemma Stop_ends_the_background_goroutines_witness :
  exists c2, Stop map_to_list (cache_with_a 0) = Ret c2 /\
             Active c2 = false /\
             (MaxItems c2, MaxSize c2, ExpireItem c2, Every c2)
             = (MaxItems (cache_with_a 0), MaxSize (cache_with_a 0),
                ExpireItem (cache_with_a 0), Every (cache_with_a 0)) /\
             vaccuum 0 (disk 0) map_to_list c2 = VaccuumReturns /\
             item_listener (disk 0) c2 = Ret None.
Proof.
  destruct (Stop_ends_the_background_goroutines (disk 0) map_to_list 0 (cache_with_a 0) []
              eq_refl) as (c2 & H1 & H2 & H3 & H4 & H5 & _).
  exists c2. repeat split; try assumption. apply H5. reflexivity.
Defined.

(** ** Inspection: [FileSize], [StoredFiles], [GetItemString] *)

Lemma wrap64_small z : min_int64 <= z <= max_int64 -> wrap64 z = z.
Proof.
  unfold wrap64, min_int64, max_int64. intros Hz.
  rewrite Z.mod_small; lia.
Qed.

Lemma wrap64_add_l a b : wrap64 (wrap64 a + b) = wrap64 (a + b).
Proof.
  unfold wrap64.
  replace ((a + 2 ^ 63) mod 2 ^ 64 - 2 ^ 63 + b + 2 ^ 63)
    with ((a + 2 ^ 63) mod 2 ^ 64 + b) by lia.
  rewrite Z.add_mod_idemp_l by lia. f_equal. f_equal. lia.
Qed.

Lemma FileSize_loop (l : list (string * cacheItem.t)) a :
  foldl (fun totalSize e => wrap64 (totalSize + cacheItem.Size e.2)) (wrap64 a) l
  = wrap64 (a + sum_of_sizes l).
Proof.
  revert a. induction l as [|e l IH]; intros a; simpl.
  - f_equal. lia.
  - rewrite wrap64_add_l, IH. f_equal. lia.
Qed.

Lemma sum_of_sizes_Permutation l l' : l ≡ₚ l' -> sum_of_sizes l = sum_of_sizes l'.
Proof.
  induction 1 as [|e l l' _ IH|e e' l|l l' l'' _ IH1 _ IH2]; simpl; lia.
Qed.

(** X11. [FileSize] is the sum of the [Size] fields of the cached entries,
    reduced to [int64], whatever the order in which the map is visited; it
    is the sum itself when that fits [int64]. *)
Theorem FileSize_is_the_sum_of_the_sizes ord c (m : gmap string cacheItem.t) :
  enumerates ord -> items c = Some m ->
  FileSize ord c = wrap64 (sum_of_sizes (map_to_list m)) /\
  (min_int64 <= sum_of_sizes (map_to_list m) <= max_int64 ->
   FileSize ord c = sum_of_sizes (map_to_list m)).
Proof.
  intros Hord Hm.
  assert (FileSize ord c = wrap64 (sum_of_sizes (map_to_list m))) as Hsum.
  { unfold FileSize, range. rewrite Hm.
    change 0 with (wrap64 0) at 1. rewrite FileSize_loop. simpl.
    rewrite (sum_of_sizes_Permutation _ _ (Hord m)). reflexivity. }
  split; [exact Hsum|]. intros Hfit. rewrite Hsum. apply wrap64_small, Hfit.
Qed.

Lemma FileSize_is_the_sum_of_the_sizes_witness :
  FileSize map_to_list (full_cache 0) = 4.
Proof.
  rewrite (proj2 (FileSize_is_the_sum_of_the_sizes map_to_list (full_cache 0) _
                    enumerates_map_to_list eq_refl));
    vm_compute; [reflexivity | split; discriminate].
Defined.

Lemma StoredFiles_loop (l : list (string * cacheItem.t)) acc :
  foldl (fun fileList e => fileList ++ [e.1]) acc l = acc ++ l.*1.
Proof.
  revert acc. induction l as [|e l IH]; intros acc; simpl.
  - rewrite app_nil_r. reflexivity.
  - rewrite IH, <- app_assoc. reflexivity.
Qed.

(** X12. [StoredFiles] lists every cached key exactly once and nothing
    else, so its length is [Size] (on an inert cache it is empty). *)
Theorem StoredFiles_lists_each_key_once ord c :
  enumerates ord ->
  NoDup (StoredFiles ord c) /\
  (forall name, name ∈ StoredFiles ord c <-> InCache c name = true) /\
  Z.of_nat (length (StoredFiles ord c)) = Size c.
Proof.
  intros Hord. unfold StoredFiles. rewrite StoredFiles_loop. simpl.
  unfold range, InCache, lookup_item, Size. destruct (items c) as [m|].
  - pose proof (Hord m) as Hperm.
    split; [rewrite Hperm; apply NoDup_fst_map_to_list|]. split.
    + intros name. rewrite Hperm, list_elem_of_fmap. split.
      * intros [[k i] [-> Hin]]. apply elem_of_map_to_list in Hin. simpl. rewrite Hin.
        reflexivity.
      * destruct (m !! name) as [i|] eqn:Hl; [|discriminate]. intros _.
        exists (name, i). split; [reflexivity|]. apply elem_of_map_to_list, Hl.
    + rewrite Hperm, length_fmap, length_map_to_list. reflexivity.
  - split; [constructor|]. split; [|reflexivity].
    intros name. split; [intros H; inversion H | discriminate].
Qed.

Lemma StoredFiles_lists_each_key_once_witness :
  NoDup (StoredFiles map_to_list (full_cache 0)) /\
  ("a"%string ∈ StoredFiles map_to_list (full_cache 0) <->
   InCache (full_cache 0) "a" = true) /\
  Z.of_nat (length (StoredFiles map_to_list (full_cache 0))) = Size (full_cache 0).
Proof.
  pose proof (StoredFiles_lists_each_key_once map_to_list (full_cache 0)
                enumerates_map_to_list) as (H1 & H2 & H3).
  split; [exact H1|]. split; [exact (H2 "a"%string) | exact H3].
Defined.

(** X13. The string readers return the bytes the byte readers return:
    [GetItemString] gives the content of [GetItem] as a string with the same
    flag; [ReadFileString] starts the goroutines [ReadFile] starts and, on a
    hit or when the file reads without error, gives the content of
    [ReadFile] as a string. *)
Theorem string_readers_agree_with_byte_readers w c name :
  String.list_byte_of_string (GetItemString c name).1 = (GetItem c name).1 /\
  (GetItemString c name).2 = (GetItem c name).2 /\
  (ReadFileString w c name).2 = (ReadFile w c name).2 /\
  (InCache c name = true \/ (readFile w name).2 = None ->
   String.list_byte_of_string (ReadFileString w c name).1.1 = (ReadFile w c name).1.1).
Proof.
  assert (String.list_byte_of_string (GetItemString c name).1 = (GetItem c name).1) as Hget.
  { unfold GetItemString, GetItem. destruct (lookup_item c name); simpl; [|reflexivity].
    apply String.list_byte_of_string_of_list_byte. }
  split; [exact Hget|]. split.
  { unfold GetItemString, GetItem. destruct (lookup_item c name); reflexivity. }
  unfold ReadFileString, ReadFile. destruct (InCache c name); simpl.
  - split; [reflexivity|]. intros _. exact Hget.
  - destruct (readFile w name) as [content [e|]]; simpl.
    + split; [reflexivity|]. intros [H|H]; discriminate.
    + split; [reflexivity|]. intros _. apply String.list_byte_of_string_of_list_byte.
Qed.

(** ** Concrete reachable caches *)

Lemma reachable_default_cache_with_a (good : World -> Prop) :
  good (disk 1) -> reachable good default_cache_with_a.
Proof.
  intros Hgood.
  apply (reachable_step good (disk 1) map_to_list (OpCacheNow "a")
           (mkFileCache (Some ∅) (Some (mkChan false []))
              DefaultMaxItems DefaultMaxSize DefaultExpireItem DefaultEvery));
    [|exact Hgood|exact enumerates_map_to_list|vm_compute; reflexivity].
  apply (reachable_step good (disk 1) map_to_list OpStart NewDefaultCache);
    [apply reachable_NewDefaultCache|exact Hgood|exact enumerates_map_to_list|reflexivity].
Qed.


Lemma disk_size_is_read_length t : stat_size_is_read_length (disk t).
Proof.
  intros name fi content. unfold disk. simpl.
  destruct (String.eqb name "a"); [intros [= <-] [= <-]; reflexivity|].
  destruct (String.eqb name "big"); [intros [= <-] [= <-]; reflexivity|].
  discriminate.
Qed.

(** ** Writing to a writer: [WriteItem], [WriteFile] *)

(** X14. [WriteItem] on a cache reached through filesystems on which files
    read as many bytes as [stat] reported: a key that is not cached gives
    [ItemNotInCache]; for a cached key the writer's error is passed on, a
    write of exactly the content's length gives nil, and any other count
    gives [WriteIncomplete]. *)
Theorem WriteItem_reports_exactly_the_short_writes wr c name :
  reachable stat_size_is_read_length c ->
  WriteItem wr c name =
  match lookup_item c name with
  | None => Some ItemNotInCache
  | Some itm =>
      match wr (cacheItem.Content itm) with
      | (_, Some e) => Some (OSError e)
      | (n, None) =>
          if n =? Z.of_nat (length (cacheItem.Content itm)) then None
          else Some WriteIncomplete
      end
  end.
Proof.
  intros Hreach. unfold WriteItem.
  destruct (lookup_item c name) as [itm|] eqn:Hitm; [|reflexivity].
  destruct (reachable_entries _ c name itm Hreach Hitm)
    as (w & c0 & Hgood & (fi & content & Hstat & _ & _ & Hread & ->)).
  simpl. rewrite (Hgood name fi content Hstat Hread).
  destruct (wr content) as [n [e|]]; [reflexivity|].
  destruct (n =? Z.of_nat (length content)); reflexivity.
Qed.

Lemma WriteItem_reports_exactly_the_short_writes_witness :
  WriteItem write_all default_cache_with_a "a" = None /\
  WriteItem (fun b => (1, None)) default_cache_with_a "a" = Some WriteIncomplete.
Proof.
  split.
  - exact (WriteItem_reports_exactly_the_short_writes write_all default_cache_with_a "a"
             (reachable_default_cache_with_a _ (disk_size_is_read_length 1))).
  - exact (WriteItem_reports_exactly_the_short_writes (fun b => (1, None))
             default_cache_with_a "a"
             (reachable_default_cache_with_a _ (disk_size_is_read_length 1))).
Defined.


(** ** [Start] *)

(** X16. [Start] on a cache whose pipe is nil or open returns, starts the
    listener and the sweeper, and leaves an active, empty cache with the
    configuration it had: whatever was cached before is gone. *)
Theorem Start_gives_an_empty_active_cache c :
  in_pipe c = None \/ (exists buf, in_pipe c = Some (mkChan false buf)) ->
  exists c1, Start c = Ret (c1, [GoItemListener; GoVaccuum]) /\
             Active c1 = true /\ Size c1 = 0 /\
             (forall name, InCache c1 name = false) /\
             (MaxItems c1, MaxSize c1, ExpireItem c1, Every c1)
             = (MaxItems c, MaxSize c, ExpireItem c, Every c).
Proof.
  intros Hp. unfold Start.
  assert (exists c0, close_in_pipe c = Ret c0 /\
                     (MaxItems c0, MaxSize c0, ExpireItem c0, Every c0)
                     = (MaxItems c, MaxSize c, ExpireItem c, Every c)) as (c0 & -> & Hcfg).
  { destruct Hp as [Hp|[buf Hp]].
    - exists c. rewrite (close_in_pipe_nil c Hp). auto.
    - eexists. rewrite (close_in_pipe_open c buf Hp). split; reflexivity. }
  simpl. eexists. split; [reflexivity|]. split; [reflexivity|]. split; [reflexivity|].
  split; [|exact Hcfg].
  intros name. unfold InCache, lookup_item. simpl. rewrite lookup_empty. reflexivity.
Qed.

Lemma Start_gives_an_empty_active_cache_witness :
  exists c1, Start (full_cache 0) = Ret (c1, [GoItemListener; GoVaccuum]) /\
             Active c1 = true /\ Size c1 = 0 /\
             (forall name, InCache c1 name = false) /\
             (MaxItems c1, MaxSize c1, ExpireItem c1, Every c1)
             = (MaxItems (full_cache 0), MaxSize (full_cache 0),
                ExpireItem (full_cache 0), Every (full_cache 0)).
Proof.
  exact (Start_gives_an_empty_active_cache (full_cache 0)
           (or_intror (ex_intro _ [] eq_refl))).
Defined.

(** ** Invariants of reachable caches *)



(** X18. In every cache reached through filesystems on which a file reads
    as many bytes as [stat] reported, [Size] is the length of [Content] for
    every entry. *)
Theorem Size_is_the_Content_length_on_coherent_filesystems c name itm :
  reachable stat_size_is_read_length c -> lookup_item c name = Some itm ->
  cacheItem.Size itm = Z.of_nat (length (cacheItem.Content itm)).
Proof.
  intros Hreach Hitm.
  destruct (reachable_entries _ c name itm Hreach Hitm)
    as (w & c0 & Hgood & (fi & content & Hstat & _ & _ & Hread & ->)).
  simpl. apply (Hgood name fi content Hstat Hread).
Qed.

Lemma Size_is_the_Content_length_on_coherent_filesystems_witness :
  cacheItem.Size (cacheItem.mk hi 2 1 10)
  = Z.of_nat (length (cacheItem.Content (cacheItem.mk hi 2 1 10))).
Proof.
  exact (Size_is_the_Content_length_on_coherent_filesystems default_cache_with_a "a" _
           (reachable_default_cache_with_a _ (disk_size_is_read_length 1)) eq_refl).
Defined.

(** ** The maintenance cycle, further *)

(** The sweep deletes no key that is not stale. *)
Lemma sweep_keeps_fresh_keys w names c name itm :
  lookup_item c name = Some itm -> item_expired w c name = false ->
  lookup_item (sweep w c names) name = Some itm.
Proof.
  revert c. induction names as [|k0 names IH]; intros c Hitm Hfresh; simpl; [exact Hitm|].
  apply IH.
  - destruct (item_expired w c k0) eqn:He; [|exact Hitm].
    rewrite lookup_item_delete_item. case_decide; [congruence|exact Hitm].
  - rewrite <- Hfresh. apply item_expired_ext.
    + destruct (item_expired w c k0) eqn:He; [|reflexivity].
      rewrite lookup_item_delete_item. case_decide; [congruence|reflexivity].
    + destruct (item_expired w c k0); [apply pruned_delete_item | reflexivity].
Qed.

Lemma Size_pruned c c' : pruned c c' -> Size c' <= Size c.
Proof.
  intros Hp. unfold Size.
  destruct (items c) as [m|] eqn:Hm, (items c') as [m'|] eqn:Hm'; try lia.
  - apply inj_le, map_subseteq_size, map_subseteq_spec. intros k i Hk.
    pose proof (pruned_lookup c c' k i Hp) as Hl. unfold lookup_item in Hl.
    rewrite Hm, Hm' in Hl. exact (Hl Hk).
  - destruct Hp as (_&_&_&_&_&[H _]&_). specialize (H Hm). congruence.
Qed.

(** X19. While the entry count is within [MaxItems], a turn of the
    maintenance loop removes the stale keys and nothing else: every key
    whose entry is not stale keeps its entry, every stale key is gone, and
    the turn completes whatever the order of the scan. *)
Theorem vaccuum_within_capacity_removes_only_stale_keys w ord fuel c
    (m : gmap string cacheItem.t) :
  enumerates ord -> items c = Some m -> Size c <= MaxItems c ->
  exists c', vaccuum fuel w ord c = VaccuumSwept c' /\
             forall name itm, lookup_item c name = Some itm ->
               lookup_item c' name = if item_expired w c name then None else Some itm.
Proof.
  intros Hord Hm Hcap. unfold vaccuum. rewrite Hm.
  set (c1 := sweep w c (range ord c).*1).
  pose proof (pruned_sweep w (range ord c).*1 c) as Hp. fold c1 in Hp.
  assert (evict_excess fuel w ord c1 = Some c1) as ->.
  { pose proof (Size_pruned c c1 Hp) as Hsz.
    assert (MaxItems c1 = MaxItems c) as Hmax by apply Hp.
    destruct fuel; simpl;
      (replace (MaxItems c1 <? Size c1) with false by (symmetry; apply Z.ltb_ge; lia));
      reflexivity. }
  exists c1. split; [reflexivity|]. intros name itm Hitm.
  destruct (item_expired w c name) eqn:He.
  - destruct (lookup_item c1 name) as [itm1|] eqn:Hl1; [|reflexivity].
    assert (item_expired w c1 name = false) as Hfresh.
    { apply sweep_leaves_no_stale_key; [|apply InCache_true; eauto].
      intros k Hk. left.
      apply InCache_true in Hk as [i Hi]. unfold lookup_item in Hi. rewrite Hm in Hi.
      unfold range. rewrite Hm. apply list_elem_of_fmap. exists (k, i).
      split; [reflexivity|]. apply (elem_of_enumeration ord m k i Hord), Hi. }
    rewrite (item_expired_pruned w c c1 name Hp) in Hfresh by eauto. congruence.
  - apply sweep_keeps_fresh_keys; assumption.
Qed.

Lemma vaccuum_within_capacity_removes_only_stale_keys_witness :
  exists c', vaccuum 0 (disk 300000000000) map_to_list (full_cache 60) = VaccuumSwept c' /\
             forall name itm, lookup_item (full_cache 60) name = Some itm ->
               lookup_item c' name
               = if item_expired (disk 300000000000) (full_cache 60) name
                 then None else Some itm.
Proof.
  exact (vaccuum_within_capacity_removes_only_stale_keys (disk 300000000000) map_to_list 0
           (full_cache 60) _ enumerates_map_to_list eq_refl
           ltac:(vm_compute; discriminate)).
Defined.

(** X20. Above capacity the eviction loop stops as soon as the count is
    [MaxItems]: it deletes entries, touches nothing else, and leaves exactly
    [MaxItems] of them. *)
Theorem evict_excess_stops_at_MaxItems w ord fuel c (m : gmap string cacheItem.t) :
  enumerates ord -> items c = Some m -> m !! EmptyString = None ->
  0 <= MaxItems c <= Size c -> (size m <= fuel)%nat ->
  exists c', evict_excess fuel w ord c = Some c' /\ pruned c c' /\ Size c' = MaxItems c.
Proof.
  intros Hord. revert c m. induction fuel as [|fuel IH]; intros c m Hm Hempty Hmax Hfuel; simpl.
  - assert (Size c = 0) as Hsz by (unfold Size; rewrite Hm; lia).
    replace (MaxItems c <? Size c) with false by (symmetry; apply Z.ltb_ge; lia).
    exists c. split; [reflexivity|]. split; [apply pruned_refl|lia].
  - destruct (Z.ltb_spec (MaxItems c) (Size c)) as [Hlt|Hge];
      [|exists c; split; [reflexivity|]; split; [apply pruned_refl|lia]].
    assert (m <> ∅) as Hne.
    { intros ->. unfold Size in Hlt. rewrite Hm, map_size_empty in Hlt. lia. }
    destruct (expire_oldest_forced w ord c m Hord Hm Hempty Hne) as (victim & itm & Hv & _ & He).
    assert (size m <> 0%nat) as Hpos by (apply map_size_non_empty_iff; exact Hne).
    assert (size (delete victim m) = pred (size m)) as Hsz
      by (rewrite map_size_delete, Hv; reflexivity).
    destruct (IH (expire_oldest true w ord c) (delete victim m)) as (c' & Hrun & Hp & Hsize).
    + rewrite He. reflexivity.
    + rewrite lookup_delete. case_decide; [reflexivity | exact Hempty].
    + rewrite He. simpl. rewrite Size_set_items, Hsz. unfold Size in Hlt. rewrite Hm in Hlt. lia.
    + lia.
    + exists c'. split; [exact Hrun|]. split.
      * eapply pruned_trans; [apply pruned_expire_oldest | exact Hp].
      * rewrite Hsize, He. reflexivity.
Qed.

Lemma evict_excess_stops_at_MaxItems_witness :
  exists c', evict_excess 2 (disk 9) map_to_list
               (mkFileCache (items (full_cache 0)) (in_pipe (full_cache 0)) 1 Kilobyte 0 0)
             = Some c' /\
             pruned (mkFileCache (items (full_cache 0)) (in_pipe (full_cache 0)) 1 Kilobyte 0 0)
               c' /\
             Size c' = 1.
Proof.
  exact (evict_excess_stops_at_MaxItems (disk 9) map_to_list 2
           (mkFileCache (items (full_cache 0)) (in_pipe (full_cache 0)) 1 Kilobyte 0 0) _
           enumerates_map_to_list eq_refl eq_refl
           ltac:(vm_compute; split; discriminate) ltac:(vm_compute; lia)).
Defined.

(** X21. On a cache that was never started the pipe is nil: [Cache] never
    returns from sending on it, and every [ReadFile] on such a cache starts
    a [Cache] that is parked for ever. *)
Theorem Cache_before_Start_never_returns w ord c name :
  in_pipe c = None ->
  Cache w ord c name = Hangs /\
  (items c = None -> (ReadFile w c name).2 = [GoCache name]).
Proof.
  intros Hp. split.
  - unfold Cache, send. rewrite in_pipe_Cache_eviction, Hp. reflexivity.
  - intros Hnil. unfold ReadFile, InCache, lookup_item. rewrite Hnil.
    destruct (readFile w name) as [content [e|]]; reflexivity.
Qed.

Lemma Cache_before_Start_never_returns_witness :
  Cache (disk 0) map_to_list NewDefaultCache "a" = Hangs.
Proof.
  exact (proj1 (Cache_before_Start_never_returns (disk 0) map_to_list NewDefaultCache "a"
                  eq_refl)).
Defined.

(** ** Eviction without force, and the count under [CacheNow] *)

(** The unforced scan moves only to entries strictly older than what it
    holds. *)
Lemma expire_oldest_scan_unforced (l : list (string * cacheItem.t)) t n :
  let r := foldl (expire_oldest_visit false) (t, n) l in
  (forall e, e ∈ l -> r.1 <= cacheItem.Lastaccess e.2) /\
  ((r = (t, n) /\ forall e, e ∈ l -> t <= cacheItem.Lastaccess e.2) \/
   (exists i, (r.2, i) ∈ l /\ cacheItem.Lastaccess i = r.1 /\ r.1 < t)).
Proof.
  revert t n. induction l as [|[k i] l IH]; intros t n; simpl.
  - split; [intros e He; inversion He|]. left. split; [reflexivity|].
    intros e He. inversion He.
  - unfold Time_Before. destruct (Z.ltb_spec (cacheItem.Lastaccess i) t) as [Hlt|Hge].
    + destruct (IH (cacheItem.Lastaccess i) k) as (H1 & H2). split.
      * intros e He. apply elem_of_cons in He as [->|He]; [|apply H1, He].
        destruct H2 as [[-> _]|(i' & _ & _ & Hlt')]; simpl in *; lia.
      * right. destruct H2 as [[Hr _]|(i' & Hin & Heq & Hlt')].
        -- exists i. rewrite Hr. simpl. split; [left|]. split; [reflexivity|exact Hlt].
        -- exists i'. split; [right; exact Hin|]. split; [exact Heq|lia].
    + destruct (IH t n) as (H1 & H2). split.
      * intros e He. apply elem_of_cons in He as [->|He]; [|apply H1, He].
        destruct H2 as [[-> _]|(i' & _ & _ & Hlt')]; simpl in *; lia.
      * destruct H2 as [[Hr Hall]|(i' & Hin & Heq & Hlt')].
        -- left. split; [exact Hr|]. intros e He.
           apply elem_of_cons in He as [->|He]; [exact Hge | apply Hall, He].
        -- right. exists i'. split; [right; exact Hin|]. split; assumption.
Qed.

(** X22. Without [force], [expire_oldest] deletes nothing when no entry was
    last accessed before the current time (entries cached in the same
    instant, say); when some entry was, it deletes exactly one entry, one
    that no other precedes in [Lastaccess]. *)
Theorem expire_oldest_without_force w ord c (m : gmap string cacheItem.t) :
  enumerates ord -> items c = Some m -> m !! EmptyString = None ->
  ((forall k i, m !! k = Some i -> now w <= cacheItem.Lastaccess i) ->
   expire_oldest false w ord c = c) /\
  ((exists k i, m !! k = Some i /\ cacheItem.Lastaccess i < now w) ->
   exists victim itm,
     m !! victim = Some itm /\
     (forall k i, m !! k = Some i -> cacheItem.Lastaccess itm <= cacheItem.Lastaccess i) /\
     expire_oldest false w ord c = set_items c (Some (delete victim m))).
Proof.
  intros Hord Hm Hempty.
  destruct (expire_oldest_scan_unforced (ord m) (now w) EmptyString) as (Hmin & Hcase).
  unfold expire_oldest, range. rewrite Hm.
  destruct (foldl _ _ _) as [oldest oldest_name]. simpl in *. split.
  - intros Hall. destruct Hcase as [[[= -> ->] _]|(i & Hin & Heq & Hlt)]; [reflexivity|].
    apply (elem_of_enumeration ord m _ _ Hord) in Hin. specialize (Hall _ _ Hin). lia.
  - intros (k & i & Hk & Hold).
    destruct Hcase as [[_ Hall]|(i' & Hin & Heq & Hlt)].
    + apply (elem_of_enumeration ord m _ _ Hord) in Hk. specialize (Hall _ Hk). simpl in Hall. lia.
    + pose proof (proj1 (elem_of_enumeration ord m _ _ Hord) Hin) as Hv.
      exists oldest_name, i'. split; [exact Hv|]. split.
      * intros k' j Hk'. rewrite Heq. apply (Hmin (k', j)).
        apply (elem_of_enumeration ord m _ _ Hord), Hk'.
      * assert (oldest_name <> EmptyString) as Hne by (intros ->; congruence).
        assert (String.eqb oldest_name "" = false) as -> by (apply String.eqb_neq; exact Hne).
        simpl. unfold delete_item. rewrite Hm. reflexivity.
Qed.

Lemma expire_oldest_without_force_witness :
  expire_oldest false (disk 0) map_to_list (full_cache 0) = full_cache 0.
Proof.
  apply (expire_oldest_without_force (disk 0) map_to_list (full_cache 0) _
           enumerates_map_to_list eq_refl eq_refl).
  intros k i Hk.
  destruct (String.eqb_spec k "b") as [->|Hb].
  - vm_compute in Hk. injection Hk as <-. vm_compute. discriminate.
  - rewrite lookup_insert_ne in Hk by congruence.
    apply lookup_singleton_Some in Hk as [_ <-]. vm_compute. discriminate.
Defined.

(** X23. [CacheNow] keeps the count within a positive [MaxItems]: on a
    started cache without the empty key whose count is at most [MaxItems],
    and [MaxItems] at least 1, it returns, and the count is still at most
    [MaxItems], which it leaves as it was. *)
Theorem CacheNow_keeps_the_count_within_MaxItems w ord c name
    (m : gmap string cacheItem.t) :
  enumerates ord -> items c = Some m -> m !! EmptyString = None ->
  1 <= MaxItems c -> Size c <= MaxItems c ->
  exists err c', CacheNow w ord c name = Ret (err, c') /\
                 Size c' <= MaxItems c' /\ MaxItems c' = MaxItems c /\
                 is_Some (items c').
Proof.
  intros Hord Hm Hempty Hpos Hcap. unfold CacheNow.
  destruct (Z.eqb_spec (Size c) (MaxItems c)) as [Hfull|Hroom].
  - assert (m <> ∅) as Hne.
    { intros ->. unfold Size in Hfull. rewrite Hm, map_size_empty in Hfull. lia. }
    destruct (expire_oldest_forced w ord c m Hord Hm Hempty Hne)
      as (victim & itm & Hv & _ & He).
    destruct (add_item_Size w (expire_oldest true w ord c) name (delete victim m))
      as (err & c' & Hrun & Hsz & Hmax & Hsome); [rewrite He; reflexivity|].
    exists err, c'. split; [exact Hrun|].
    assert (Size (expire_oldest true w ord c) = Size c - 1) as Hless.
    { rewrite He, Size_set_items. unfold Size. rewrite Hm, map_size_delete, Hv.
      assert (size m <> 0%nat) by (apply map_size_non_empty_iff; exact Hne).
      simpl. lia. }
    assert (MaxItems (expire_oldest true w ord c) = MaxItems c) as Hsame
      by apply pruned_expire_oldest.
    split; [lia|]. split; [congruence|exact Hsome].
  - destruct (add_item_Size w c name m Hm) as (err & c' & Hrun & Hsz & Hmax & Hsome).
    exists err, c'. split; [exact Hrun|]. split; [lia|]. split; assumption.
Qed.

Lemma CacheNow_keeps_the_count_within_MaxItems_witness :
  exists err c', CacheNow (disk 9) map_to_list (full_cache 0) "a" = Ret (err, c') /\
                 Size c' <= MaxItems c' /\ MaxItems c' = MaxItems (full_cache 0) /\
                 is_Some (items c').
Proof.
  exact (CacheNow_keeps_the_count_within_MaxItems (disk 9) map_to_list (full_cache 0) "a" _
           enumerates_map_to_list eq_refl eq_refl
           ltac:(vm_compute; discriminate) ltac:(vm_compute; discriminate)).
Defined.
